(** * Galaxy morphology experiment: VAE, PINN, evolution simulator, metrics

    A shallow embedding of [galaxy.py].  Tensor entries are real numbers
    (the Standard Library's [R]): the development is about the arithmetic the
    script asks for, so float32 rounding, overflow and NaN are outside it.
    Library calls that can raise (shape mismatches, indexing, [.numpy()] on a
    tensor that requires grad, undecodable image files) return [option].

    Layout: part I embeds the script, part II states and proves its
    properties. *)

From Stdlib Require Import Reals Lra Lia ZArith.
From Stdlib Require OrderedTypeEx.
From stdpp Require Import base list strings gmap sorting pretty.

Open Scope R_scope.

(** * Part I: the program *)

(** ** Tensors *)

(** A 2-d tensor is a list of rows; [matrix] is only a notation so that the
    list instances of stdpp still apply. *)
Abbreviation matrix := (list (list R)).

(** The tensors whose rank matters to the script: scalars, vectors and
    batches of rows. *)
Inductive tensor :=
  | Dim0 (r : R)
  | Dim1 (v : list R)
  | Dim2 (m : matrix).

Definition dim (t : tensor) : nat :=
  match t with Dim0 _ => 0 | Dim1 _ => 1 | Dim2 _ => 2 end.

Definition Rsum (l : list R) : R := foldr Rplus 0 l.

(** [torch.mean] / [np.mean] of the entries in [l]. *)
Definition mean (l : list R) : R := Rsum l / INR (length l).

Definition torch_sum (m : matrix) : R := Rsum (concat m).
Definition torch_mean (m : matrix) : R := mean (concat m).

(** Pointwise operations.  The script only combines tensors of equal shape
    (or a tensor and a Python scalar); [tzip] is meant for equal shapes. *)
Definition tmap (f : R → R) (m : matrix) : matrix := map (map f) m.
Definition tzip (f : R → R → R) (a b : matrix) : matrix :=
  zip_with (zip_with f) a b.

Definition tadd : matrix → matrix → matrix := tzip Rplus.
Definition tsub : matrix → matrix → matrix := tzip Rminus.
Definition tmul : matrix → matrix → matrix := tzip Rmult.
Definition tsquare (m : matrix) : matrix := tmap (λ a, a ^ 2) m.
Definition texp (m : matrix) : matrix := tmap exp m.
Definition ones_like (m : matrix) : matrix := tmap (λ _, 1) m.

(** [torch.linspace(a, b, steps)] *)
Definition linspace (a b : R) (steps : nat) : list R :=
  match steps with
  | 1%nat => [a]
  | _ => map (λ i, a + INR i * ((b - a) / INR (steps - 1))) (seq 0 steps)
  end.

(** [v.unsqueeze(1)] on a vector: every entry becomes a row of its own. *)
Definition unsqueeze1 (v : list R) : matrix := map (λ a, [a]) v.

(** [t.reshape(rows, cols)]: the entries of [t] in row-major order, cut into
    [rows] rows of [cols] entries; raises unless the sizes agree. *)
Definition entries (t : tensor) : list R :=
  match t with Dim0 r => [r] | Dim1 v => v | Dim2 m => concat m end.

Fixpoint chunks (rows cols : nat) (l : list R) : matrix :=
  match rows with
  | O => []
  | S k => take cols l :: chunks k cols (drop cols l)
  end.

Definition reshape (rows cols : nat) (t : tensor) : option tensor :=
  if decide (length (entries t) = (rows * cols)%nat)
  then Some (Dim2 (chunks rows cols (entries t)))
  else None.

(** [torch.cat([x, t], dim=1)] for a batch [x]: [t] must be 2-d with as many
    rows as [x]. *)
Definition cat_dim1 (x : matrix) (t : tensor) : option matrix :=
  match t with
  | Dim2 m =>
      if decide (length x = length m) then Some (zip_with app x m) else None
  | _ => None
  end.

(** [t.expand(b, 1)]: a tensor with a single entry is repeated over [b]
    rows; any other size cannot be expanded to a column. *)
Definition expand_col (b : nat) (t : tensor) : option tensor :=
  match t with
  | Dim0 a | Dim1 [a] | Dim2 [[a]] => Some (Dim2 (replicate b [a]))
  | Dim2 m =>
      if decide (length m = b ∧ Forall (λ r, length r = 1%nat) m)
      then Some (Dim2 m) else None
  | _ => None
  end.

(** Iterating over a tensor walks its first dimension. *)
Definition iter_tensor (t : tensor) : option (list tensor) :=
  match t with
  | Dim0 _ => None
  | Dim1 v => Some (map Dim0 v)
  | Dim2 m => Some (map Dim1 m)
  end.

(** ** Autograd bookkeeping

    The result of calling a module carries [requires_grad]: the parameters
    of a module always require grad, so the flag of the result is the grad
    mode in force ([torch.no_grad()] switches it off).  [.numpy()] raises on
    a tensor that requires grad. *)
Record output := mkOutput { values : matrix; requires_grad : bool }.

Definition call (grad_enabled : bool) (r : option matrix) : option output :=
  d ← r; Some (mkOutput d grad_enabled).

Definition detach (o : output) : output := mkOutput (values o) false.

Definition numpy (o : output) : option matrix :=
  if requires_grad o then None else Some (values o).

(** ** Layers *)

Record Linear := mkLinear {
  in_features : nat;
  out_features : nat;
  weight : matrix;          (* out_features rows of in_features entries *)
  bias : list R             (* out_features entries *)
}.

Definition dot (w x : list R) : R := Rsum (zip_with Rmult w x).

Definition Linear_row (L : Linear) (x : list R) : option (list R) :=
  if decide (length x = in_features L)
  then Some (zip_with (λ w b, dot w x + b) (weight L) (bias L))
  else None.

Definition Linear_forward (L : Linear) (x : matrix) : option matrix :=
  mapM (Linear_row L) x.

(** What [nn.Linear(i, o)] constructs, whatever training does to the
    numbers. *)
Definition Linear_shape (i o : nat) (L : Linear) : Prop :=
  in_features L = i ∧ out_features L = o ∧
  length (weight L) = o ∧ Forall (λ r, length r = i) (weight L) ∧
  length (bias L) = o.

Definition ReLU : matrix → matrix := tmap (Rmax 0).
Definition sigmoid (a : R) : R := 1 / (1 + exp (- a)).
Definition Sigmoid : matrix → matrix := tmap sigmoid.
Definition Tanh : matrix → matrix := tmap tanh.

(** ** GalaxyVAE *)

Record GalaxyVAE := mkVAE {
  encoder_0 : Linear; encoder_2 : Linear;
  fc_mu : Linear; fc_logvar : Linear;
  decoder_0 : Linear; decoder_2 : Linear; decoder_4 : Linear
}.

(** [GalaxyVAE.__init__(input_dim, latent_dim)] *)
Definition GalaxyVAE_shape (input_dim latent_dim : nat) (vae : GalaxyVAE) : Prop :=
  Linear_shape input_dim 16 (encoder_0 vae) ∧
  Linear_shape 16 8 (encoder_2 vae) ∧
  Linear_shape 8 latent_dim (fc_mu vae) ∧
  Linear_shape 8 latent_dim (fc_logvar vae) ∧
  Linear_shape latent_dim 8 (decoder_0 vae) ∧
  Linear_shape 8 16 (decoder_2 vae) ∧
  Linear_shape 16 input_dim (decoder_4 vae).

Definition encoder (vae : GalaxyVAE) (x : matrix) : option matrix :=
  h ← Linear_forward (encoder_0 vae) x;
  Linear_forward (encoder_2 vae) (ReLU h).

Definition decoder (vae : GalaxyVAE) (z : matrix) : option matrix :=
  h1 ← Linear_forward (decoder_0 vae) z;
  h2 ← Linear_forward (decoder_2 vae) (ReLU h1);
  h3 ← Linear_forward (decoder_4 vae) (ReLU h2);
  Some (Sigmoid h3).

Definition encode (vae : GalaxyVAE) (x : matrix) : option (matrix * matrix) :=
  h ← encoder vae x;
  mu ← Linear_forward (fc_mu vae) h;
  logvar ← Linear_forward (fc_logvar vae) h;
  Some (mu, logvar).

(** [torch.randn_like(std)]: one sample per entry of [std]; [noise i j] is
    the sample drawn for entry (i, j). *)
Definition randn_like (noise : nat → nat → R) (m : matrix) : matrix :=
  imap (λ i r, imap (λ j _, noise i j) r) m.

Definition reparameterize (noise : nat → nat → R) (mu logvar : matrix) : matrix :=
  let std := texp (tmap (Rmult 0.5) logvar) in
  tadd mu (tmul std (randn_like noise std)).

Definition GalaxyVAE_forward (vae : GalaxyVAE) (noise : nat → nat → R)
    (x : matrix) : option (matrix * matrix * matrix) :=
  '(mu, logvar) ← encode vae x;
  let z := reparameterize noise mu logvar in
  x_hat ← decoder vae z;
  Some (x_hat, mu, logvar).

(** [vae_loss] of the training script. *)
Definition mse_loss_sum (input target : matrix) : R :=
  torch_sum (tsquare (tsub input target)).

Definition vae_loss (x x_hat mu logvar : matrix) : R :=
  let recon := mse_loss_sum x_hat x in
  let kl := -0.5 * torch_sum (tsub (tsub (tmap (Rplus 1) logvar) (tsquare mu))
                                   (texp logvar)) in
  recon + kl.

(** ** GalaxyPINN *)

Record GalaxyPINN := mkPINN { net_0 : Linear; net_2 : Linear; net_4 : Linear }.

(** [GalaxyPINN.__init__(input_dim, hidden_dim)] *)
Definition GalaxyPINN_shape (input_dim hidden_dim : nat) (pinn : GalaxyPINN) : Prop :=
  Linear_shape (input_dim + 1) hidden_dim (net_0 pinn) ∧
  Linear_shape hidden_dim hidden_dim (net_2 pinn) ∧
  Linear_shape hidden_dim input_dim (net_4 pinn).

Definition net (pinn : GalaxyPINN) (x_t : matrix) : option matrix :=
  h1 ← Linear_forward (net_0 pinn) x_t;
  h2 ← Linear_forward (net_2 pinn) (Tanh h1);
  Linear_forward (net_4 pinn) (Tanh h2).

Definition GalaxyPINN_forward (pinn : GalaxyPINN) (x : matrix) (t : tensor)
    : option matrix :=
  let t := match t with Dim1 v => Dim2 (unsqueeze1 v) | _ => t end in
  x_t ← cat_dim1 x t;
  net pinn x_t.

(** *** The physics residual

    [preds] reaches [physics_loss] as a node of the autograd graph.  What
    [torch.autograd.grad] reads from that graph is, for each entry [t_k] of
    the leaf [t] (in row-major order), the matrix of partial derivatives
    of every entry of [preds] with respect to [t_k]. *)
Record tracked := mkTracked { value : matrix; d_dt : list matrix }.

(** [torch.autograd.grad(outputs, inputs=t, grad_outputs=v)[0]] is the
    vector-Jacobian product: entry [k] adds [v[i][j] * d outputs[i][j] / d t_k]
    over all i, j.  The result has the shape of [t]; its entries are listed
    in row-major order. *)
Definition autograd_grad (outputs : tracked) (grad_outputs : matrix) : list R :=
  map (λ J, torch_sum (tmul grad_outputs J)) (d_dt outputs).

Definition physics_loss (preds : tracked) (weight : option R) : R :=
  let weight := default 0.1 weight in
  let d_preds_dt := autograd_grad preds (ones_like (value preds)) in
  weight * mean (map (λ g, g ^ 2) d_preds_dt).

(** ** Python scalars *)

(** [int(a)] on a float truncates toward zero. *)
Definition py_int (a : R) : Z :=
  if Rle_dec 0 a then Int_part a else (- Int_part (- a))%Z.

(** [range(n)] *)
Definition range (n : Z) : list Z := map Z.of_nat (seq 0 (Z.to_nat n)).

(** [f"{step:02d}"] *)
Definition pad2 (step : nat) : string :=
  if decide (step < 10)%nat then "0" +:+ pretty step else pretty step.

(** [for a in l: body] over a state that the body may fail on. *)
Fixpoint for_each {A S : Type} (body : A → S → option S) (l : list A) (s : S)
    : option S :=
  match l with
  | [] => Some s
  | a :: l' => s' ← body a s; for_each body l' s'
  end.

Definition enumerate {A : Type} (l : list A) : list (nat * A) :=
  imap (λ i a, (i, a)) l.

(** ** The world the script acts on *)

(** One [ax.scatter] call: the star positions and the arguments at which the
    plasma colormap is read. *)
Record scatter := mkScatter { xs : list R; ys : list R; colors : list R }.

Inductive figure :=
  | SpiralFigure (layers : list scatter)
  | HeatmapFigure (title : string) (mid_t : option R) (cm : list (list nat)).

(** A file is a saved figure, an animation assembled from opened images, or
    something PIL cannot decode. *)
#[warnings="-register-all"]
Inductive file :=
  | Png (fig : figure)
  | Gif (images : list file) (duration : Z) (loop : Z)
  | Other.

(** What the evaluation dictionaries hold. *)
Inductive dict_value :=
  | Float (a : R)
  | Records (l : list (gmap string R))
  | ConfusionMatrix (cm : list (list nat)).

(** [(m > threshold).astype(int)] *)
Definition binarize (threshold : R) (m : matrix) : list (list Z) :=
  map (map (λ a, if Rlt_dec threshold a then 1%Z else 0%Z)) m.

(** [nn.MSELoss()(input, target)], mean reduction. *)
Definition MSELoss (input target : matrix) : R :=
  torch_mean (tsquare (tsub input target)).

(** [t.item()]: the only entry of a one-entry tensor. *)
Definition item (t : tensor) : option R :=
  match t with
  | Dim0 a | Dim1 [a] | Dim2 [[a]] => Some a
  | _ => None
  end.

(** Python orders [str] lexicographically by code point. *)
Definition str_le (a b : string) : Prop := String.leb a b = true.

#[global] Instance str_le_dec : RelDecision str_le :=
  λ a b, decide (String.leb a b = true).

Section Pipeline.

(** The state of numpy's global generator, and [np.random.normal(loc,
    scale, size)] as a function of it. *)
Context {rng : Type}.
Variable normal : R → R → nat → rng → list R * rng.

(** scikit-learn's metrics on flattened 0/1 labels, [f1_score] with
    [average='micro']. *)
Variable accuracy_score : list Z → list Z → R.
Variable f1_score_micro : list Z → list Z → R.
Variable confusion_matrix : list Z → list Z → list (list nat).

(** [renderer_calls] is a trace kept for the specification: the arguments
    of every call of the Renderer, in order. *)
Record world := mkWorld {
  np_random : rng;
  files : gmap string file;
  stdout : list string;
  renderer_calls : list (nat * list R)
}.

(** *** Renderer *)

Definition num_stars : nat := 1000.

Definition draw_arm (r theta : list R) (num_arms : Z) (brightness : R)
    (acc : list scatter * rng) (arm : Z) : list scatter * rng :=
  let '(layers, g) := acc in
  let arm_theta := map (λ th, th + (2 * PI / IZR num_arms) * IZR arm) theta in
  let '(jx, g) := normal 0 0.02 num_stars g in
  let x := zip_with Rplus (zip_with Rmult r (map cos arm_theta)) jx in
  let '(jy, g) := normal 0 0.02 num_stars g in
  let y := zip_with Rplus (zip_with Rmult r (map sin arm_theta)) jy in
  let color_shift := Rmin 1.0 brightness in
  let colors := linspace 0.2 color_shift num_stars in
  (layers ++ [mkScatter x y colors], g).

Definition draw_spiral_galaxy_features (step : nat) (features : list R)
    (w : world) : option world :=
  match features with
  | [P_EL; P_CW; P_ACW; P_EDGE; P_DK; P_MG; P_CS; P_EL_DEBIASED; P_CS_DEBIASED] =>
      let num_arms := py_int (2 + 4 * (P_CW + P_ACW)) in
      let spiral_tightness := 0.5 + 3 * (1 - P_EL) in
      let brightness := 0.5 + P_CS in
      let r := linspace 0.05 1.0 num_stars in
      let theta := map (λ ri, ri * spiral_tightness * PI + INR step * 0.3) r in
      let '(layers, g) :=
        foldl (draw_arm r theta num_arms brightness) ([], np_random w)
              (range num_arms) in
      Some (mkWorld g
              (<["results/evolution_step_" +:+ pad2 step +:+ ".png" :=
                   Png (SpiralFigure layers)]> (files w))
              (stdout w)
              (renderer_calls w ++ [(step, features)]))
  | _ => None
  end.

(** *** EvolutionSimulator *)

Definition simulate_step (pinn : GalaxyPINN) (start_state : matrix)
    (it : nat * tensor) (w : world) : option world :=
  let '(i, t) := it in
  t_input ← expand_col (length start_state) t;
  (* with torch.no_grad() *)
  evolved ← call false (GalaxyPINN_forward pinn start_state t_input);
  arr ← numpy evolved;
  features ← arr !! 0%nat;
  draw_spiral_galaxy_features i features w.

Definition simulate_evolution (pinn : GalaxyPINN) (vae : GalaxyVAE)
    (start_state : matrix) (steps : option nat) (w : world) : option world :=
  let steps := default 15%nat steps in
  let t_vals := Dim2 (unsqueeze1 (linspace 0 1 steps)) in
  ts ← iter_tensor t_vals;
  for_each (simulate_step pinn start_state) (enumerate ts) w.

(** *** GIF assembly *)

(** [glob.glob(f"{folder}/evolution_step_*.png")] over the paths of the file
    system ([folder] holds no glob metacharacter): the star stands for any
    run of characters within one path component. *)
Definition glob_match (folder path : string) : bool :=
  let pre := folder +:+ "/evolution_step_" in
  let n := String.length path in
  let k := String.length pre in
  bool_decide (k + 4 ≤ n)%nat &&
  String.prefix pre path &&
  String.eqb (String.substring (n - 4) 4 path) ".png" &&
  bool_decide (String.index 0 "/" (String.substring k (n - 4 - k) path) = None).

Definition glob (folder : string) (fs : gmap string file) : list string :=
  filter (λ p, glob_match folder p = true) (map fst (map_to_list fs)).

(** [sorted] on a list of [str]. *)
Definition sorted (l : list string) : list string := merge_sort str_le l.

(** [Image.open(f)] *)
Definition Image_open (fs : gmap string file) (f : string) : option file :=
  match fs !! f with
  | Some (Png fig) => Some (Png fig)
  | Some (Gif images duration loop) => Some (Gif images duration loop)
  | Some Other | None => None
  end.

Definition create_gif (folder gif_name : option string) (duration : option Z)
    (w : world) : option world :=
  let folder := default "results" folder in
  let gif_name := default "Train_evolution.gif" gif_name in
  let duration := default 200%Z duration in
  let image_files := sorted (glob folder (files w)) in
  images ← mapM (Image_open (files w)) image_files;
  match images with
  | _ :: _ =>
      Some (mkWorld (np_random w)
              (<[gif_name := Gif images duration 0]> (files w))
              (stdout w ++ ["🎞️ GIF saved as " +:+ gif_name])
              (renderer_calls w))
  | [] =>
      Some (mkWorld (np_random w) (files w)
              (stdout w ++ ["⚠️ No evolution images found."])
              (renderer_calls w))
  end.

(** *** MetricsEvaluator *)

Definition evaluate_vae (vae : GalaxyVAE) (noise : nat → nat → R)
    (data : matrix) (threshold : option R) (w : world)
    : option (gmap string dict_value * world) :=
  let threshold := default 0.5 threshold in
  (* with torch.no_grad() *)
  '(x_hat, mu, logvar) ← GalaxyVAE_forward vae noise data;
  let reconstructed := mkOutput x_hat false in
  let mse := MSELoss (values reconstructed) data in
  let rmse := sqrt mse in
  let actual_binary := binarize threshold data in
  pred ← numpy (detach reconstructed);
  let pred_binary := binarize threshold pred in
  let actual_flat := concat actual_binary in
  let pred_flat := concat pred_binary in
  let accuracy := accuracy_score actual_flat pred_flat in
  let f1 := f1_score_micro actual_flat pred_flat in
  let cm := confusion_matrix actual_flat pred_flat in
  Some (<["MSE" := Float mse]> (<["RMSE" := Float rmse]>
        (<["Accuracy" := Float accuracy]> (<["F1 Score" := Float f1]>
        (<["Confusion Matrix" := ConfusionMatrix cm]> ∅)))),
        mkWorld (np_random w)
          (<["results/vae_confusion_matrix.png" :=
               Png (HeatmapFigure "VAE Reconstruction Confusion Matrix" None cm)]>
             (files w))
          (stdout w) (renderer_calls w)).

(** The body of the loop over [t_values] in [evaluate_pinn]. *)
Definition evaluate_pinn_at (pinn : GalaxyPINN) (data : matrix)
    (threshold : R) (t : tensor) : option (gmap string R) :=
  t_tensor ← expand_col (length data) t;
  predictions ← call false (GalaxyPINN_forward pinn data t_tensor);
  let mse := MSELoss (values predictions) data in
  let rmse := sqrt mse in
  let actual_binary := binarize threshold data in
  pred ← numpy (detach predictions);
  let pred_binary := binarize threshold pred in
  let actual_flat := concat actual_binary in
  let pred_flat := concat pred_binary in
  let accuracy := accuracy_score actual_flat pred_flat in
  let f1 := f1_score_micro actual_flat pred_flat in
  t_item ← item t;
  Some (<["t" := t_item]> (<["MSE" := mse]> (<["RMSE" := rmse]>
        (<["Accuracy" := accuracy]> (<["F1 Score" := f1]> ∅))))).

Definition evaluate_pinn (pinn : GalaxyPINN) (data : matrix)
    (t_values : option tensor) (w : world)
    : option (gmap string dict_value * world) :=
  let t_values := default (Dim1 (linspace 0 1 10)) t_values in
  let threshold := 0.5 in
  ts ← iter_tensor t_values;
  results ← mapM (evaluate_pinn_at pinn data threshold) ts;
  avg_mse ← mean <$> mapM (λ r : gmap string R, r !! "MSE") results;
  avg_rmse ← mean <$> mapM (λ r : gmap string R, r !! "RMSE") results;
  avg_accuracy ← mean <$> mapM (λ r : gmap string R, r !! "Accuracy") results;
  avg_f1 ← mean <$> mapM (λ r : gmap string R, r !! "F1 Score") results;
  mid_t ← ts !! (length ts / 2)%nat;
  mid_t_tensor ← expand_col (length data) mid_t;
  mid_predictions ← call true (GalaxyPINN_forward pinn data mid_t_tensor);
  let mid_actual_binary := binarize threshold data in
  mid_pred ← numpy (detach mid_predictions);
  let mid_pred_binary := binarize threshold mid_pred in
  let cm := confusion_matrix (concat mid_actual_binary) (concat mid_pred_binary) in
  mid_t_item ← item mid_t;
  Some (<["Detail" := Records results]> (<["Average MSE" := Float avg_mse]>
        (<["Average RMSE" := Float avg_rmse]>
        (<["Average Accuracy" := Float avg_accuracy]>
        (<["Average F1 Score" := Float avg_f1]>
        (<["Mid-t Confusion Matrix" := ConfusionMatrix cm]> ∅))))),
        mkWorld (np_random w)
          (<["results/pinn_confusion_matrix.png" :=
               Png (HeatmapFigure "PINN Prediction Confusion Matrix"
                      (Some mid_t_item) cm)]>
             (files w))
          (stdout w) (renderer_calls w)).

End Pipeline.

(** ** The training and simulation script *)

(** The loss of one PINN epoch:
    [nn.MSELoss()(out, X_tensor) + physics_loss(out, timesteps)]. *)
Definition pinn_training_loss (out : tracked) (X_tensor : matrix) : R :=
  MSELoss (value out) X_tensor + physics_loss out None.

(** The indices [random.choice] picks the galaxy from. *)
Definition galaxy_choices : list nat := [0; 10; 100; 200; 500; 800]%nat.

(** [X_tensor[rand_idx].unsqueeze(0)] *)
Definition select_sample (X_tensor : matrix) (rand_idx : nat) : option matrix :=
  row ← X_tensor !! rand_idx; Some [row].

Section Script.

Context {rng : Type}.
Variable normal : R → R → nat → rng → list R * rng.

(** The end of the script, from the index [random.choice] returned on:
    announce the galaxy, cut it out, simulate, assemble the GIF. *)
Definition simulate_and_animate (pinn : GalaxyPINN) (vae : GalaxyVAE)
    (X_tensor : matrix) (rand_idx : nat) (w : @world rng) : option world :=
  let w := mkWorld (np_random w) (files w)
             (stdout w ++ [String (Ascii.ascii_of_nat 10)
                             ("🌌 Simulating galaxy at index " +:+ pretty rand_idx)])
             (renderer_calls w) in
  sample ← select_sample X_tensor rand_idx;
  w ← simulate_evolution normal pinn vae sample None w;
  create_gif None None None w.

End Script.

(** ** Concrete instances used as test inputs *)

(** A layer of the given size with all parameters zero. *)
Definition zero_linear (i o : nat) : Linear :=
  mkLinear i o (replicate o (replicate i 0)) (replicate o 0).

Definition zero_vae : GalaxyVAE :=
  mkVAE (zero_linear 9 16) (zero_linear 16 8) (zero_linear 8 3) (zero_linear 8 3)
        (zero_linear 3 8) (zero_linear 8 16) (zero_linear 16 9).

Definition zero_pinn : GalaxyPINN :=
  mkPINN (zero_linear 10 32) (zero_linear 32 32) (zero_linear 32 9).

(** The clear elliptical of the end-to-end scenario. *)
Definition clear_elliptical : list R := [0.9; 0; 0; 0; 0; 0.1; 0.8; 0.9; 0.8].

(** A results folder with two evolution frames, listed out of order, and
    one file that is not a frame. *)
Definition frame_a : file := Png (SpiralFigure []).
Definition frame_b : file := Png (HeatmapFigure "b" None []).

Definition two_frames : @world nat :=
  mkWorld 0%nat
    (<["results/evolution_step_01.png" := frame_b]>
     (<["results/vae_confusion_matrix.png" := frame_a]>
     (<["results/evolution_step_00.png" := frame_a]> ∅)))
    [] [].

Definition no_frames : @world nat :=
  mkWorld 0%nat (<["results/vae_confusion_matrix.png" := frame_a]> ∅) [] [].

(** Stand-ins for the scikit-learn metrics on the test inputs: the share of
    positions on which the labels agree, and the 2-by-2 table of label
    pairs. *)
Definition agreement (y_true y_pred : list Z) : R :=
  INR (length (filter (λ p : Z * Z, p.1 = p.2) (zip y_true y_pred))) /
  INR (length y_true).

Definition pair_counts (y_true y_pred : list Z) : list (list nat) :=
  let c (a b : Z) := length (filter (λ p : Z * Z, p = (a, b)) (zip y_true y_pred)) in
  [[c 0%Z 0%Z; c 0%Z 1%Z]; [c 1%Z 0%Z; c 1%Z 1%Z]].

(** A sampler that returns its location parameter and steps a counter. *)
Definition constant_normal (loc scale : R) (n : nat) (g : nat) : list R * nat :=
  (replicate n loc, S g).

(** * Part II: properties *)

(** ** Shapes *)

(** [shape n k m]: [m] is an n-by-k tensor. *)
Definition shape (n k : nat) (m : matrix) : Prop :=
  length m = n ∧ Forall (λ r, length r = k) m.

Lemma shape_nil k : shape 0 k [].
Proof. split; [done | constructor]. Qed.

Lemma shape_cons n k r m :
  shape (S n) k (r :: m) ↔ length r = k ∧ shape n k m.
Proof.
  unfold shape; split.
  - intros [Hl Hf]. inversion Hf; subst. simpl in Hl. repeat split; auto with lia.
  - intros [Hr [Hl Hf]]. split; [simpl; lia | by constructor].
Qed.

Lemma shape_tmap n k f m : shape n k m → shape n k (tmap f m).
Proof.
  unfold shape, tmap. intros [Hl Hf]. split.
  - by rewrite length_map.
  - apply Forall_map. eapply Forall_impl; [exact Hf |].
    intros r Hr. simpl. by rewrite length_map.
Qed.

Lemma shape_tzip n k f a b :
  shape n k a → shape n k b → shape n k (tzip f a b).
Proof.
  revert n b. induction a as [|r a IH]; intros n b [Hla Hfa] [Hlb Hfb].
  - simpl in *. subst n. apply shape_nil.
  - destruct b as [|s b]; simpl in *; [lia |].
    destruct n as [|n]; [lia |].
    inversion Hfa; inversion Hfb; subst.
    apply shape_cons. split.
    + rewrite length_zip_with. lia.
    + apply IH; split; auto with lia.
Qed.

Lemma shape_randn_like n k noise m : shape n k m → shape n k (randn_like noise m).
Proof.
  unfold shape, randn_like. intros [Hl Hf]. split.
  - by rewrite length_imap.
  - apply Forall_lookup. intros i r Hi.
    rewrite list_lookup_imap in Hi.
    destruct (m !! i) as [r0|] eqn:Hm; simpl in Hi; [|done].
    injection Hi as <-. rewrite length_imap.
    eapply Forall_lookup_1 in Hf; eauto.
Qed.

Lemma shape_reparameterize n k noise mu logvar :
  shape n k mu → shape n k logvar → shape n k (reparameterize noise mu logvar).
Proof.
  intros Hmu Hlv. unfold reparameterize, tadd, tmul, texp.
  apply shape_tzip; [done |].
  apply shape_tzip; [| apply shape_randn_like]; by do 2 apply shape_tmap.
Qed.

Lemma Linear_row_shape i o L x :
  Linear_shape i o L → length x = i →
  ∃ y, Linear_row L x = Some y ∧ length y = o.
Proof.
  intros (Hi & Ho & Hw & Hr & Hb) Hx. unfold Linear_row.
  rewrite decide_True by congruence.
  eexists; split; [done |]. rewrite length_zip_with. lia.
Qed.

Lemma Linear_forward_shape i o L n x :
  Linear_shape i o L → shape n i x →
  ∃ y, Linear_forward L x = Some y ∧ shape n o y.
Proof.
  intros HL. revert n. induction x as [|r x IH]; intros n Hx.
  - destruct Hx as [<- _]. exists []. split; [done | apply shape_nil].
  - destruct n as [|n]; [destruct Hx; simpl in *; lia |].
    apply shape_cons in Hx as [Hr Hx].
    destruct (Linear_row_shape i o L r HL Hr) as (y & Hy & Hly).
    destruct (IH n Hx) as (ys & Hys & Hsh).
    exists (y :: ys). split; [| by apply shape_cons].
    unfold Linear_forward in *. simpl. rewrite Hy. simpl. by rewrite Hys.
Qed.

Lemma zero_linear_shape i o : Linear_shape i o (zero_linear i o).
Proof.
  unfold Linear_shape, zero_linear. cbn [in_features out_features weight bias].
  rewrite !length_replicate. repeat split.
  apply Forall_replicate, length_replicate.
Qed.

(** ** The VAE decoder is bounded *)

Definition unit_interval (a : R) : Prop := 0 <= a <= 1.

(** Every row has [k] entries, each of them in [[0,1]]. *)
Definition in_unit_cube (k : nat) (m : matrix) : Prop :=
  Forall (λ r, length r = k ∧ Forall unit_interval r) m.

Lemma sigmoid_bounds a : 0 < sigmoid a < 1.
Proof.
  unfold sigmoid. pose proof (exp_pos (- a)) as He.
  assert (Hd : 0 < 1 + exp (- a)) by lra.
  split.
  - apply Rdiv_lt_0_compat; lra.
  - apply (Rmult_lt_reg_r (1 + exp (- a))); [done |].
    unfold Rdiv. rewrite Rmult_assoc, Rinv_l by lra. lra.
Qed.

Lemma Sigmoid_unit_interval m : Forall (Forall unit_interval) (Sigmoid m).
Proof.
  unfold Sigmoid, tmap. apply Forall_map, Forall_true. intros r. simpl.
  apply Forall_map, Forall_true. intros a. simpl.
  pose proof (sigmoid_bounds a). unfold unit_interval. lra.
Qed.

Lemma decoder_bounded vae z x_hat :
  decoder vae z = Some x_hat → Forall (Forall unit_interval) x_hat.
Proof.
  unfold decoder. intros H.
  destruct (Linear_forward (decoder_0 vae) z) as [h1|]; simpl in H; [|done].
  destruct (Linear_forward (decoder_2 vae) (ReLU h1)) as [h2|]; simpl in H; [|done].
  destruct (Linear_forward (decoder_4 vae) (ReLU h2)) as [h3|]; simpl in H; [|done].
  injection H as <-. apply Sigmoid_unit_interval.
Qed.

Lemma decoder_shape vae input_dim latent_dim n z :
  GalaxyVAE_shape input_dim latent_dim vae → shape n latent_dim z →
  ∃ x_hat, decoder vae z = Some x_hat ∧ shape n input_dim x_hat.
Proof.
  intros (_ & _ & _ & _ & H0 & H2 & H4) Hz. unfold decoder, ReLU, Sigmoid.
  destruct (Linear_forward_shape _ _ _ _ _ H0 Hz) as (h1 & -> & Hh1). simpl.
  apply (shape_tmap _ _ (Rmax 0)) in Hh1.
  destruct (Linear_forward_shape _ _ _ _ _ H2 Hh1) as (h2 & -> & Hh2). simpl.
  apply (shape_tmap _ _ (Rmax 0)) in Hh2.
  destruct (Linear_forward_shape _ _ _ _ _ H4 Hh2) as (h3 & -> & Hh3). simpl.
  eexists; split; [done |]. by apply shape_tmap.
Qed.

Lemma encode_shape vae input_dim latent_dim n x :
  GalaxyVAE_shape input_dim latent_dim vae → shape n input_dim x →
  ∃ mu logvar, encode vae x = Some (mu, logvar) ∧
               shape n latent_dim mu ∧ shape n latent_dim logvar.
Proof.
  intros (H0 & H2 & Hm & Hl & _) Hx. unfold encode, encoder, ReLU.
  destruct (Linear_forward_shape _ _ _ _ _ H0 Hx) as (h1 & -> & Hh1). simpl.
  apply (shape_tmap _ _ (Rmax 0)) in Hh1.
  destruct (Linear_forward_shape _ _ _ _ _ H2 Hh1) as (h & -> & Hh). simpl.
  destruct (Linear_forward_shape _ _ _ _ _ Hm Hh) as (mu & -> & Hmu). simpl.
  destruct (Linear_forward_shape _ _ _ _ _ Hl Hh) as (lv & -> & Hlv). simpl.
  by exists mu, lv.
Qed.

Lemma in_unit_cube_intro n k m :
  shape n k m → Forall (Forall unit_interval) m → in_unit_cube k m.
Proof.
  intros [_ Hs] Hb. unfold in_unit_cube.
  apply Forall_lookup. intros i r Hi. split.
  - eapply Forall_lookup_1 in Hs; eauto.
  - eapply Forall_lookup_1 in Hb; eauto.
Qed.

(** C2.  With the layers [GalaxyVAE()] constructs (9 features, 3 latent
    dimensions), [decode] maps every batch of latent codes to a batch of
    as many rows in [[0,1]^9], and [forward] does so for every batch of
    9-feature rows and every draw of the reparameterisation noise: the last
    decoder layer is the sigmoid. *)
Theorem vae_reconstruction_in_unit_cube (vae : GalaxyVAE) :
  GalaxyVAE_shape 9 3 vae →
  (∀ n z, shape n 3 z →
     ∃ x_hat, decoder vae z = Some x_hat ∧ length x_hat = n ∧
              in_unit_cube 9 x_hat) ∧
  (∀ n noise x, shape n 9 x →
     ∃ x_hat mu logvar,
       GalaxyVAE_forward vae noise x = Some (x_hat, mu, logvar) ∧
       length x_hat = n ∧ in_unit_cube 9 x_hat).
Proof.
  intros Hvae. split.
  - intros n z Hz.
    destruct (decoder_shape _ _ _ _ _ Hvae Hz) as (x_hat & Hd & Hs).
    exists x_hat. split; [done |]. split; [apply Hs |].
    eapply in_unit_cube_intro; eauto using decoder_bounded.
  - intros n noise x Hx.
    destruct (encode_shape _ _ _ _ _ Hvae Hx) as (mu & lv & He & Hmu & Hlv).
    pose proof (shape_reparameterize _ _ noise _ _ Hmu Hlv) as Hz.
    destruct (decoder_shape _ _ _ _ _ Hvae Hz) as (x_hat & Hd & Hs).
    exists x_hat, mu, lv. unfold GalaxyVAE_forward. rewrite He. simpl.
    rewrite Hd. simpl. split; [done |]. split; [apply Hs |].
    eapply in_unit_cube_intro; eauto using decoder_bounded.
Qed.

Lemma vae_reconstruction_in_unit_cube_witness :
  GalaxyVAE_shape 9 3 zero_vae ∧
  ∃ x_hat mu logvar,
    GalaxyVAE_forward zero_vae (λ _ _, 0) [clear_elliptical] = Some (x_hat, mu, logvar) ∧
    length x_hat = 1%nat ∧ in_unit_cube 9 x_hat.
Proof.
  assert (Hs : GalaxyVAE_shape 9 3 zero_vae).
  { unfold GalaxyVAE_shape, Linear_shape, zero_vae, zero_linear; simpl.
    repeat split; repeat constructor. }
  split; [exact Hs |].
  apply (vae_reconstruction_in_unit_cube zero_vae Hs).
  unfold shape, clear_elliptical. split; [reflexivity | repeat constructor].
Defined.

(** ** The VAE loss in closed form *)

(** Entry (i, j) of a tensor, and a sum over the indices below [n]. *)
Definition entry (m : matrix) (i j : nat) : R := nth j (nth i m []) 0.

Definition sum_over (n : nat) (f : nat → R) : R := Rsum (map f (seq 0 n)).

(** The loss as the specification words it: squared errors and the KL term,
    each added up over all rows and all columns. *)
Definition sum_of_squared_error (n d : nat) (x_hat x : matrix) : R :=
  sum_over n (λ i, sum_over d (λ j, (entry x_hat i j - entry x i j) ^ 2)).

Definition kl_closed_form (n k : nat) (mu logvar : matrix) : R :=
  -0.5 * sum_over n (λ i, sum_over k (λ j,
           1 + entry logvar i j - entry mu i j ^ 2 - exp (entry logvar i j))).

Lemma Rsum_app a b : Rsum (a ++ b) = Rsum a + Rsum b.
Proof. induction a as [|x a IH]; simpl; [lra | rewrite IH; lra]. Qed.

Lemma sum_over_S n f : sum_over (S n) f = f 0%nat + sum_over n (λ i, f (S i)).
Proof.
  unfold sum_over. simpl. f_equal.
  rewrite <- seq_shift, map_map. reflexivity.
Qed.

Lemma sum_over_ext n f g :
  (∀ i, (i < n)%nat → f i = g i) → sum_over n f = sum_over n g.
Proof.
  revert f g. induction n as [|n IH]; intros f g H; [done |].
  rewrite !sum_over_S. rewrite (H 0%nat) by lia. f_equal.
  apply IH. intros i Hi. apply H. lia.
Qed.

Lemma Rsum_nth r : Rsum r = sum_over (length r) (λ j, nth j r 0).
Proof.
  induction r as [|a r IH]; [done |].
  simpl length. rewrite sum_over_S. simpl. by rewrite IH.
Qed.

Lemma torch_sum_entries n k m :
  shape n k m → torch_sum m = sum_over n (λ i, sum_over k (λ j, entry m i j)).
Proof.
  revert n. induction m as [|r m IH]; intros n Hm.
  - destruct Hm as [<- _]. reflexivity.
  - destruct n as [|n]; [destruct Hm; simpl in *; lia |].
    apply shape_cons in Hm as [Hr Hm].
    unfold torch_sum in *. simpl concat. rewrite Rsum_app, sum_over_S.
    f_equal.
    + rewrite Rsum_nth, Hr. reflexivity.
    + rewrite (IH n Hm). reflexivity.
Qed.

Lemma nth_zip_with_R (f : R → R → R) a b j :
  (j < length a)%nat → (j < length b)%nat →
  nth j (zip_with f a b) 0 = f (nth j a 0) (nth j b 0).
Proof.
  revert b j. induction a as [|x a IH]; intros b j Ha Hb; simpl in *; [lia |].
  destruct b as [|y b]; simpl in *; [lia |].
  destruct j as [|j]; [done |]. apply IH; lia.
Qed.

Lemma entry_tzip n k f a b i j :
  shape n k a → shape n k b → (i < n)%nat → (j < k)%nat →
  entry (tzip f a b) i j = f (entry a i j) (entry b i j).
Proof.
  revert n b i. induction a as [|r a IH]; intros n b i Ha Hb Hi Hj.
  - destruct Ha as [Hl _]. simpl in Hl. lia.
  - destruct b as [|s b]; [destruct Hb as [Hl _]; simpl in Hl; lia |].
    destruct n as [|n]; [lia |].
    apply shape_cons in Ha as [Hr Ha]. apply shape_cons in Hb as [Hs Hb].
    destruct i as [|i].
    + unfold entry. simpl. apply nth_zip_with_R; lia.
    + apply (IH n b i Ha Hb); lia.
Qed.

Lemma entry_tmap n k f m i j :
  shape n k m → (i < n)%nat → (j < k)%nat →
  entry (tmap f m) i j = f (entry m i j).
Proof.
  intros [Hl Hf] Hi Hj. unfold entry, tmap.
  rewrite (nth_indep _ [] (map f [])) by (rewrite length_map; lia).
  rewrite map_nth.
  assert (Hr : length (nth i m []) = k).
  { assert (Hin : In (nth i m []) m) by (apply nth_In; lia).
    rewrite Forall_forall in Hf. apply Hf. by apply list_elem_of_In. }
  rewrite (nth_indep _ 0 (f 0)) by (rewrite length_map; lia).
  apply map_nth.
Qed.

Lemma mse_loss_sum_entries n d input target :
  shape n d input → shape n d target →
  mse_loss_sum input target = sum_of_squared_error n d input target.
Proof.
  intros Hi Ht. unfold mse_loss_sum, sum_of_squared_error, tsquare, tsub.
  rewrite (torch_sum_entries n d) by (apply shape_tmap, shape_tzip; done).
  apply sum_over_ext. intros i Hin. apply sum_over_ext. intros j Hj.
  rewrite (entry_tmap n d) by (try apply shape_tzip; done).
  rewrite (entry_tzip n d) by done. reflexivity.
Qed.

(** C3.  On a batch of [n] rows, [d] features and [k] latent dimensions,
    [vae_loss] is the sum of the squared errors between [x_hat] and [x] plus
    -0.5 times the sum of [1 + logvar - mu^2 - exp logvar], both sums running
    over every row and every column, with no division by a count. *)
Theorem vae_loss_closed_form (n d k : nat) (x x_hat mu logvar : matrix) :
  shape n d x → shape n d x_hat → shape n k mu → shape n k logvar →
  vae_loss x x_hat mu logvar =
    sum_of_squared_error n d x_hat x + kl_closed_form n k mu logvar.
Proof.
  intros Hx Hxh Hmu Hlv. unfold vae_loss, kl_closed_form.
  rewrite (mse_loss_sum_entries n d) by done. f_equal. f_equal.
  unfold tsquare, texp, tsub.
  rewrite (torch_sum_entries n k)
    by (repeat first [apply shape_tzip | apply shape_tmap]; done).
  apply sum_over_ext. intros i Hi. apply sum_over_ext. intros j Hj.
  rewrite (entry_tzip n k) by (repeat first [apply shape_tzip | apply shape_tmap]; done).
  rewrite (entry_tzip n k) by (repeat first [apply shape_tzip | apply shape_tmap]; done).
  rewrite !(entry_tmap n k) by done. reflexivity.
Qed.

Lemma vae_loss_closed_form_witness :
  vae_loss [[1; 0]] [[0; 2]] [[3]] [[0]] =
    sum_of_squared_error 1 2 [[0; 2]] [[1; 0]] + kl_closed_form 1 1 [[3]] [[0]].
Proof.
  apply (vae_loss_closed_form 1 2 1);
    (split; [reflexivity | repeat constructor]).
Defined.

(** The value of the loss on that input: 5 from the reconstruction and 4.5
    from the KL term. *)
Example vae_loss_example : vae_loss [[1; 0]] [[0; 2]] [[3]] [[0]] = 9.5.
Proof.
  unfold vae_loss, mse_loss_sum, torch_sum, tsquare, tsub, texp, tzip, tmap.
  simpl. rewrite exp_0. lra.
Qed.

(** ** The physics residual *)

(** [tracks P t preds]: the forward pass computes [preds] from the entries of
    the leaf [t] as [P], and the graph holds its partial derivatives: the
    k-th matrix of [d_dt preds] has the shape of [preds] and its entry (i, j)
    is the derivative of [preds[i][j]] in the k-th entry of [t]. *)
Definition tracks (P : list R → matrix) (t : list R) (preds : tracked) : Prop :=
  value preds = P t ∧
  length (d_dt preds) = length t ∧
  ∀ k J, d_dt preds !! k = Some J →
    Forall2 (λ a b, length a = length b) J (P t) ∧
    ∀ i j, derivable_pt_lim (λ s, entry (P (<[k := s]> t)) i j)
                            (nth k t 0) (entry J i j).

(** The derivative of [preds] entry by entry, for a batch whose row [i] is
    computed from the i-th time value: a tensor of the shape of [preds]. *)
Definition d_preds_dt_entrywise (preds : tracked) : matrix :=
  imap (λ i J, nth i J []) (d_dt preds).

(** Test input: one row [[t0, -t0]] at [t0 = 2]. *)
Definition P_cancel (t : list R) : matrix := [[nth 0 t 0; - nth 0 t 0]].
Definition preds_cancel : tracked := mkTracked [[2; -2]] [[[1; -1]]].

Lemma Rsum_zero l : Forall (λ a, a = 0) l → Rsum l = 0.
Proof. induction 1 as [|a l -> _ IH]; simpl; [done | rewrite IH; lra]. Qed.

Lemma Rsum_nonneg l : Forall (λ a, 0 <= a) l → 0 <= Rsum l.
Proof. induction 1 as [|a l Ha _ IH]; simpl; lra. Qed.

Lemma mean_nonneg l : Forall (λ a, 0 <= a) l → 0 <= mean l.
Proof.
  intros H. unfold mean, Rdiv.
  apply Rmult_le_pos; [by apply Rsum_nonneg |].
  destruct l as [|a l]; [simpl; rewrite Rinv_0; lra |].
  left. apply Rinv_0_lt_compat, lt_0_INR. simpl. lia.
Qed.

Lemma mean_zero l : Forall (λ a, a = 0) l → mean l = 0.
Proof. intros H. unfold mean. rewrite (Rsum_zero l H). lra. Qed.

Lemma torch_sum_ones_like v J :
  Forall2 (λ a b, length a = length b) J v →
  torch_sum (tmul (ones_like v) J) = torch_sum J.
Proof.
  unfold torch_sum, tmul, tzip, ones_like, tmap.
  induction 1 as [|r s J v Hrs _ IH]; [done |].
  simpl. rewrite !Rsum_app, IH. f_equal. clear IH.
  revert s Hrs. induction r as [|a r IHr]; intros [|b s] Hl; simpl in *; try done.
  rewrite IHr by lia. lra.
Qed.

Lemma torch_sum_zero_entries J : (∀ i j, entry J i j = 0) → torch_sum J = 0.
Proof.
  unfold torch_sum. induction J as [|r J IH]; intros H; [done |].
  simpl. rewrite Rsum_app, IH.
  - rewrite Rsum_nth, (sum_over_ext _ _ (λ _, 0)).
    + generalize (length r). intros n. unfold sum_over.
      rewrite Rsum_zero; [lra |]. apply Forall_map, Forall_true. done.
    + intros j _. apply (H 0%nat j).
  - intros i j. apply (H (S i) j).
Qed.

Lemma physics_loss_unfold preds :
  physics_loss preds None =
    0.1 * mean (map (λ J, torch_sum (tmul (ones_like (value preds)) J) ^ 2)
                    (d_dt preds)).
Proof. unfold physics_loss, autograd_grad. simpl. by rewrite map_map. Qed.

Lemma tracked_sums P t preds :
  tracks P t preds →
  map (λ J, torch_sum (tmul (ones_like (value preds)) J) ^ 2) (d_dt preds) =
  map (λ J, torch_sum J ^ 2) (d_dt preds).
Proof.
  intros (Hv & _ & HJ). apply list_eq. intros k. rewrite !list_lookup_fmap.
  destruct (d_dt preds !! k) as [J|] eqn:Hk; [simpl | done].
  destruct (HJ k J Hk) as [Hs _]. rewrite Hv.
  by rewrite torch_sum_ones_like.
Qed.

Lemma constant_has_zero_partials P t preds k J :
  tracks P t preds → (∀ t', P t' = P t) →
  d_dt preds !! k = Some J → torch_sum J = 0.
Proof.
  intros (_ & _ & HJ) Hc Hk. destruct (HJ k J Hk) as [_ Hd].
  apply torch_sum_zero_entries. intros i j.
  apply (uniqueness_limite (λ _, entry (P t) i j) (nth k t 0)).
  - specialize (Hd i j).
    unfold derivable_pt_lim in *. intros eps Heps.
    destruct (Hd eps Heps) as [delta Hdelta]. exists delta.
    intros h Hh Hlt. specialize (Hdelta h Hh Hlt).
    rewrite (Hc (<[k := nth k t 0 + h]> t)), (Hc (<[k := nth k t 0]> t)) in Hdelta.
    exact Hdelta.
  - apply derivable_pt_lim_const.
Qed.

(** C1, as the code has it.  When the graph of [preds] records its partial
    derivatives in the entries of a non-empty [t], [physics_loss] with the
    default weight is 0.1 times the mean, over the entries of [t], of the
    squared all-ones vector-Jacobian product: for each entry of [t] the
    derivatives of all entries of [preds] are added up first and the sum is
    squared.  The loss is never negative, and it is 0 when [preds] does not
    change with [t]. *)
Theorem physics_loss_summed_gradient (P : list R → matrix) (t : list R)
    (preds : tracked) :
  tracks P t preds → t ≠ [] →
  physics_loss preds None = 0.1 * mean (map (λ J, torch_sum J ^ 2) (d_dt preds)) ∧
  0 <= physics_loss preds None ∧
  ((∀ t', P t' = P t) → physics_loss preds None = 0).
Proof.
  intros Htr Hne.
  assert (Heq : physics_loss preds None =
                0.1 * mean (map (λ J, torch_sum J ^ 2) (d_dt preds))).
  { rewrite physics_loss_unfold. by rewrite (tracked_sums P t). }
  split; [exact Heq |]. rewrite Heq. split.
  - apply Rmult_le_pos; [lra |]. apply mean_nonneg.
    apply Forall_map, Forall_true. intros J. simpl. apply pow2_ge_0.
  - intros Hc. rewrite mean_zero; [lra |].
    apply Forall_map, Forall_lookup. intros k J Hk. simpl.
    rewrite (constant_has_zero_partials P t preds k J); auto. lra.
Qed.

Lemma tracks_cancel : tracks P_cancel [2] preds_cancel.
Proof.
  unfold tracks, preds_cancel, P_cancel. simpl.
  split; [done |]. split; [done |].
  intros k J Hk. destruct k as [|k]; [| done]. injection Hk as <-.
  split; [repeat constructor |].
  intros i j. unfold entry.
  destruct i as [|i]; simpl.
  - destruct j as [|[|j]]; simpl.
    + apply derivable_pt_lim_id.
    + apply (derivable_pt_lim_opp id 2 1), derivable_pt_lim_id.
    + destruct j; apply derivable_pt_lim_const.
  - destruct i; destruct j; apply derivable_pt_lim_const.
Qed.

(** Test input: a forward pass that ignores [t]. *)
Definition P_const (t : list R) : matrix := [[5; 7]].
Definition preds_const : tracked := mkTracked [[5; 7]] [[[0; 0]]].

Lemma tracks_const : tracks P_const [2] preds_const.
Proof.
  unfold tracks, preds_const, P_const. simpl.
  split; [done |]. split; [done |].
  intros k J Hk. destruct k as [|k]; [| done]. injection Hk as <-.
  split; [repeat constructor |].
  intros i j. unfold entry.
  destruct i as [|[|i]]; destruct j as [|[|[|j]]]; simpl;
    apply derivable_pt_lim_const.
Qed.

Lemma physics_loss_summed_gradient_witness :
  physics_loss preds_const None =
    0.1 * mean (map (λ J, torch_sum J ^ 2) (d_dt preds_const)) ∧
  0 <= physics_loss preds_const None ∧
  physics_loss preds_const None = 0.
Proof.
  destruct (physics_loss_summed_gradient P_const [2] preds_const)
    as (H1 & H2 & H3).
  - exact tracks_const.
  - discriminate.
  - split; [exact H1 |]. split; [exact H2 |]. apply H3. reflexivity.
Defined.

(** C1, as it is worded, fails on the row [[t0, -t0]]: the two derivatives
    are 1 and -1, the mean of their squares is 1, yet the code adds them up
    before squaring and returns 0. *)
Lemma physics_loss_not_mean_of_squared_derivatives :
  tracks P_cancel [2] preds_cancel ∧
  d_preds_dt_entrywise preds_cancel = [[1; -1]] ∧
  physics_loss preds_cancel None = 0 ∧
  0.1 * torch_mean (tsquare (d_preds_dt_entrywise preds_cancel)) = 0.1 ∧
  physics_loss preds_cancel None ≠
    0.1 * torch_mean (tsquare (d_preds_dt_entrywise preds_cancel)).
Proof.
  assert (H1 : physics_loss preds_cancel None = 0).
  { unfold physics_loss, autograd_grad, mean, torch_sum, tmul, tzip, ones_like, tmap.
    simpl. lra. }
  assert (H2 : 0.1 * torch_mean (tsquare (d_preds_dt_entrywise preds_cancel)) = 0.1).
  { unfold torch_mean, mean, tsquare, tmap. simpl. lra. }
  split; [exact tracks_cancel |]. split; [done |].
  split; [exact H1 |]. split; [exact H2 |]. rewrite H1, H2. lra.
Qed.

(** ** The Renderer's arm count *)

(** The quantity the arm count is read from: [2 + 4 * (P_CW + P_ACW)], with
    [P_CW] and [P_ACW] the second and third feature. *)
Definition arm_formula (features : list R) : R :=
  2 + 4 * (nth 1 features 0 + nth 2 features 0).

Definition evolution_step_png (step : nat) : string :=
  "results/evolution_step_" +:+ pad2 step +:+ ".png".

(** A feature vector a trained PINN may return (its last layer is linear):
    here [2 + 4 * (P_CW + P_ACW)] is -0.5. *)
Definition negative_spiral : list R := [0.1; -0.5; -0.125; 0; 0; 0; 0; 0; 0].

Lemma py_int_nonneg a : 0 <= a → py_int a = Int_part a.
Proof. intros H. unfold py_int. destruct (Rle_dec 0 a); [done | lra]. Qed.

Lemma py_int_neg a : a < 0 → py_int a = (- Int_part (- a))%Z.
Proof. intros H. unfold py_int. destruct (Rle_dec 0 a); [lra | done]. Qed.

Lemma Int_part_bounds a : IZR (Int_part a) <= a < IZR (Int_part a) + 1.
Proof. destruct (base_Int_part a). lra. Qed.

(** Truncation toward zero: rounding down from 0 on, rounding up below 0. *)
Lemma py_int_truncates a :
  (0 <= a → IZR (py_int a) <= a < IZR (py_int a) + 1) ∧
  (a < 0 → a <= IZR (py_int a) < a + 1).
Proof.
  split; intros H.
  - rewrite py_int_nonneg by done. apply Int_part_bounds.
  - rewrite py_int_neg by done. rewrite opp_IZR.
    pose proof (Int_part_bounds (- a)). lra.
Qed.

Lemma py_int_range a (lo hi : Z) :
  0 <= a → IZR lo <= a <= IZR hi → (lo <= py_int a <= hi)%Z.
Proof.
  intros H0 [Hlo Hhi]. destruct (py_int_truncates a) as [Hb _].
  specialize (Hb H0). split.
  - apply Z.lt_succ_r, lt_IZR. rewrite succ_IZR. lra.
  - apply le_IZR. lra.
Qed.

Lemma py_int_IZR (z : Z) : py_int (IZR z) = z.
Proof.
  unfold py_int. destruct (Rle_dec 0 (IZR z)) as [H|H].
  - symmetry. apply Int_part_spec. lra.
  - rewrite <- opp_IZR. rewrite <- (Z.opp_involutive z) at 2. f_equal.
    symmetry. apply Int_part_spec. lra.
Qed.

(** [range] runs as often over the truncated count as over the count
    rounded down: below zero both give no iteration. *)
Lemma Z_to_nat_py_int a : Z.to_nat (py_int a) = Z.to_nat (Int_part a).
Proof.
  destruct (Rle_dec 0 a) as [H0|H0].
  - by rewrite py_int_nonneg.
  - assert (Hneg : a < 0) by lra.
    destruct (py_int_truncates a) as [_ Hb]. specialize (Hb Hneg).
    pose proof (Int_part_bounds a) as Hf.
    assert (H1 : (py_int a <= 0)%Z).
    { apply Z.lt_succ_r, lt_IZR. rewrite succ_IZR. lra. }
    assert (H2 : (Int_part a <= 0)%Z).
    { apply Z.lt_succ_r, lt_IZR. rewrite succ_IZR. lra. }
    lia.
Qed.

Section RendererProperties.

Context {rng : Type}.
Variable normal : R → R → nat → rng → list R * rng.

Lemma draw_arm_layers r theta n b acc arm :
  length (draw_arm normal r theta n b acc arm).1 = S (length acc.1).
Proof.
  unfold draw_arm. destruct acc as [layers g].
  destruct (normal 0 0.02 num_stars g) as [jx g1].
  destruct (normal 0 0.02 num_stars g1) as [jy g2]. cbn [fst].
  rewrite length_app. cbn [length]. lia.
Qed.

Lemma foldl_draw_arm_layers r theta n b arms acc :
  length (foldl (draw_arm normal r theta n b) acc arms).1 =
  (length acc.1 + length arms)%nat.
Proof.
  revert acc. induction arms as [|a arms IH]; intros acc; simpl; [lia |].
  rewrite IH, draw_arm_layers. lia.
Qed.

Lemma length_range n : length (range n) = Z.to_nat n.
Proof. unfold range. by rewrite length_map, length_seq. Qed.

(** What a call of the Renderer leaves behind: the trace entry, one file
    with as many scatter layers as [int] of the arm formula, and nothing
    else changed but the generator state. *)
Lemma draw_spiral_galaxy_features_spec step features (w : world) :
  length features = 9%nat →
  ∃ g layers,
    draw_spiral_galaxy_features normal step features w =
      Some (mkWorld g (<[evolution_step_png step := Png (SpiralFigure layers)]> (files w))
                    (stdout w) (renderer_calls w ++ [(step, features)])) ∧
    length layers = Z.to_nat (py_int (arm_formula features)).
Proof.
  intros Hlen.
  destruct features as [|P_EL [|P_CW [|P_ACW [|P_EDGE [|P_DK [|P_MG [|P_CS
    [|P_EL_D [|P_CS_D [|? ?]]]]]]]]]]; simpl in Hlen; try lia.
  unfold draw_spiral_galaxy_features, arm_formula. simpl nth.
  match goal with |- context [foldl (draw_arm normal ?r ?th ?n ?b) ?a ?l] =>
    pose proof (foldl_draw_arm_layers r th n b l a) as Hl;
    destruct (foldl (draw_arm normal r th n b) a l) as [layers g] end.
  exists g, layers. split; [done |].
  simpl in Hl. by rewrite Hl, length_range.
Qed.

(** C4.  For every 9-feature vector the Renderer draws as many arms as
    [2 + 4 * (P_CW + P_ACW)] rounded down says (none when that is below 1).
    On features that are not negative, as probabilities are, the arm count
    [int(2 + 4 * (P_CW + P_ACW))] is that rounded-down value itself and at
    least 2; it lies between 2 and 6 when [P_CW] and [P_ACW] add up to at
    most 1, and it is 2 for the clear elliptical of the end-to-end
    scenario. *)
Theorem renderer_arm_count (step : nat) (features : list R) (w : world) :
  length features = 9%nat →
  let v := arm_formula features in
  let arms := py_int v in
  (∃ g layers,
     draw_spiral_galaxy_features normal step features w =
       Some (mkWorld g (<[evolution_step_png step := Png (SpiralFigure layers)]> (files w))
                     (stdout w) (renderer_calls w ++ [(step, features)])) ∧
     length layers = Z.to_nat (Int_part v)) ∧
  (0 <= nth 1 features 0 → 0 <= nth 2 features 0 →
   arms = Int_part v ∧ IZR arms <= v < IZR arms + 1 ∧ (2 <= arms)%Z) ∧
  (0 <= nth 1 features 0 → 0 <= nth 2 features 0 →
   nth 1 features 0 + nth 2 features 0 <= 1 → (2 <= arms <= 6)%Z) ∧
  py_int (arm_formula clear_elliptical) = 2%Z.
Proof.
  intros Hlen v arms. split; [| split; [| split]].
  - destruct (draw_spiral_galaxy_features_spec step features w Hlen)
      as (g & layers & Hd & Hl).
    exists g, layers. split; [exact Hd |].
    by rewrite Hl, Z_to_nat_py_int.
  - intros H1 H2.
    assert (Hv : 2 <= v) by (unfold v, arm_formula; lra).
    unfold arms. rewrite py_int_nonneg by lra.
    split; [done |]. split; [apply Int_part_bounds |].
    rewrite <- (py_int_nonneg v) by lra.
    pose proof (Rle_refl v) as Hr.
    destruct (py_int_truncates v) as [Hb _].
    assert (H0 : 0 <= v) by lra. specialize (Hb H0).
    apply Z.lt_succ_r, Z.succ_lt_mono, lt_IZR. rewrite !succ_IZR. lra.
  - intros H1 H2 H12. apply py_int_range; unfold v, arm_formula; lra.
  - unfold arm_formula, clear_elliptical. simpl.
    replace (2 + 4 * (0 + 0)) with (IZR 2) by lra. apply py_int_IZR.
Qed.

End RendererProperties.

Lemma renderer_arm_count_witness :
  let normal := constant_normal in
  let w := mkWorld 0%nat ∅ [] [] in
  ∃ g layers,
    draw_spiral_galaxy_features normal 0 clear_elliptical w =
      Some (mkWorld g (<[evolution_step_png 0 := Png (SpiralFigure layers)]> ∅)
                    [] [(0%nat, clear_elliptical)]) ∧
    length layers = Z.to_nat (Int_part (arm_formula clear_elliptical)) ∧
    py_int (arm_formula clear_elliptical) = Int_part (arm_formula clear_elliptical) ∧
    py_int (arm_formula clear_elliptical) = 2%Z.
Proof.
  intros normal w.
  destruct (renderer_arm_count normal 0 clear_elliptical w)
    as (Hdraw & Hfloor & _ & H2); [reflexivity |].
  destruct Hdraw as (g & layers & Hd & Hl).
  destruct Hfloor as (Heq & _ & _);
    [unfold clear_elliptical; simpl; lra | unfold clear_elliptical; simpl; lra |].
  exists g, layers. split; [exact Hd |]. split; [exact Hl |].
  split; [exact Heq | exact H2].
Defined.

(** ** The PINN's time input *)

Lemma chunks_column v : chunks (length v) 1 v = unsqueeze1 v.
Proof.
  induction v as [|a v IH]; [done |].
  change (chunks (length (a :: v)) 1 (a :: v)) with ([a] :: chunks (length v) 1 v).
  by rewrite IH.
Qed.

Lemma reshape_column v :
  reshape (length v) 1 (Dim1 v) = Some (Dim2 (unsqueeze1 v)).
Proof.
  unfold reshape, entries. rewrite decide_True by lia. by rewrite chunks_column.
Qed.

Lemma shape_unsqueeze1 v : shape (length v) 1 (unsqueeze1 v).
Proof.
  unfold shape, unsqueeze1. split; [by rewrite length_map |].
  apply Forall_map, Forall_true. done.
Qed.

Lemma shape_cat n i k x m :
  shape n i x → shape n k m → shape n (i + k) (zip_with app x m).
Proof.
  revert n m. induction x as [|r x IH]; intros n m [Hlx Hfx] [Hlm Hfm].
  - simpl in *. subst. apply shape_nil.
  - destruct m as [|s m]; simpl in *; [lia |].
    destruct n as [|n]; [lia |].
    inversion Hfx; inversion Hfm; subst.
    apply shape_cons. split.
    + rewrite length_app. lia.
    + apply IH; split; auto with lia.
Qed.

Lemma GalaxyPINN_forward_shape input_dim hidden_dim pinn n x m :
  GalaxyPINN_shape input_dim hidden_dim pinn →
  shape n input_dim x → shape n 1 m →
  ∃ y, GalaxyPINN_forward pinn x (Dim2 m) = Some y ∧ shape n input_dim y.
Proof.
  intros (H0 & H2 & H4) Hx Hm. unfold GalaxyPINN_forward, cat_dim1, net, Tanh.
  rewrite decide_True by (destruct Hx, Hm; lia). simpl.
  pose proof (shape_cat _ _ _ _ _ Hx Hm) as Hxt.
  destruct (Linear_forward_shape _ _ _ _ _ H0 Hxt) as (h1 & -> & Hh1). simpl.
  apply (shape_tmap _ _ tanh) in Hh1.
  destruct (Linear_forward_shape _ _ _ _ _ H2 Hh1) as (h2 & -> & Hh2). simpl.
  apply (shape_tmap _ _ tanh) in Hh2.
  apply (Linear_forward_shape _ _ _ _ _ H4 Hh2).
Qed.

(** C9.  A 1-dimensional [t] can always be reshaped to a column, and
    [forward] returns the same on [t] as on that column; with the layers
    [GalaxyPINN()] constructs, a batch of [n] 9-feature rows and [n] time
    values, what it returns is a batch of [n] rows of 9 predictions. *)
Theorem pinn_forward_vector_time (pinn : GalaxyPINN) (x : matrix) (v : list R) :
  ∃ col,
    reshape (length v) 1 (Dim1 v) = Some col ∧ dim col = 2%nat ∧
    GalaxyPINN_forward pinn x (Dim1 v) = GalaxyPINN_forward pinn x col ∧
    (GalaxyPINN_shape 9 32 pinn → shape (length v) 9 x →
     ∃ y, GalaxyPINN_forward pinn x (Dim1 v) = Some y ∧ shape (length v) 9 y).
Proof.
  exists (Dim2 (unsqueeze1 v)). split; [apply reshape_column |].
  split; [done |]. split; [done |].
  intros Hp Hx.
  change (GalaxyPINN_forward pinn x (Dim1 v))
    with (GalaxyPINN_forward pinn x (Dim2 (unsqueeze1 v))).
  eapply GalaxyPINN_forward_shape; eauto using shape_unsqueeze1.
Qed.

Lemma zero_pinn_shape : GalaxyPINN_shape 9 32 zero_pinn.
Proof. repeat split; apply zero_linear_shape. Qed.

Lemma pinn_forward_vector_time_witness :
  ∃ y, GalaxyPINN_forward zero_pinn [clear_elliptical] (Dim1 [0.5]) = Some y ∧
       GalaxyPINN_forward zero_pinn [clear_elliptical] (Dim2 [[0.5]]) = Some y ∧
       shape 1 9 y.
Proof.
  destruct (pinn_forward_vector_time zero_pinn [clear_elliptical] [0.5])
    as (col & Hcol & _ & Heq & Hok).
  rewrite reshape_column in Hcol. injection Hcol as <-.
  destruct Hok as (y & Hy & Hs).
  - exact zero_pinn_shape.
  - split; [reflexivity | repeat constructor].
  - exists y. split; [exact Hy |]. split; [| exact Hs].
    rewrite <- Hy. symmetry. exact Heq.
Defined.

(** ** The evolution simulator *)

(** The feature vector of one step, computed without the world: the PINN on
    the starting batch and the step's time value, first row. *)
Definition evolved_at (pinn : GalaxyPINN) (start_state : matrix) (t : tensor)
    : option (list R) :=
  t_input ← expand_col (length start_state) t;
  out ← GalaxyPINN_forward pinn start_state t_input;
  features ← out !! 0%nat;
  if decide (length features = 9%nat) then Some features else None.

Definition tagged_evolved_at (pinn : GalaxyPINN) (start_state : matrix)
    (it : nat * tensor) : option (nat * list R) :=
  y ← evolved_at pinn start_state it.2; Some (it.1, y).

(** The calls of the Renderer a simulation makes, as a function of the
    weights, the starting batch and the step count alone. *)
Definition evolution_sequence (pinn : GalaxyPINN) (start_state : matrix)
    (steps : option nat) : option (list (nat * list R)) :=
  mapM (tagged_evolved_at pinn start_state)
       (enumerate (map Dim1 (unsqueeze1 (linspace 0 1 (default 15%nat steps))))).

(** The time value of step [i] out of [n]. *)
Definition time_at (n i : nat) : R := INR i / INR (n - 1).

Lemma for_each_cons {A S : Type} (body : A → S → option S) a l s :
  for_each body (a :: l) s = s' ← body a s; for_each body l s'.
Proof. reflexivity. Qed.

Lemma mapM_cons {A B : Type} (f : A → option B) a l :
  mapM f (a :: l) = y ← f a; k ← mapM f l; Some (y :: k).
Proof. reflexivity. Qed.

Section SimulatorProperties.

Context {rng : Type}.
Variable normal : R → R → nat → rng → list R * rng.

Lemma draw_spiral_galaxy_features_unpack step features (w : world) :
  length features ≠ 9%nat →
  draw_spiral_galaxy_features normal step features w = None.
Proof.
  intros Hlen.
  destruct features as [|? [|? [|? [|? [|? [|? [|? [|? [|? [|? ?]]]]]]]]]];
    simpl in Hlen; try done.
Qed.

Lemma simulate_step_trace pinn start_state i t (w : world) :
  match evolved_at pinn start_state t with
  | Some y => ∃ w', simulate_step normal pinn start_state (i, t) w = Some w' ∧
                    renderer_calls w' = renderer_calls w ++ [(i, y)] ∧
                    stdout w' = stdout w
  | None => simulate_step normal pinn start_state (i, t) w = None
  end.
Proof.
  unfold evolved_at, simulate_step.
  destruct (expand_col (length start_state) t) as [t_input|]; simpl; [|done].
  destruct (GalaxyPINN_forward pinn start_state t_input) as [out|]; simpl; [|done].
  destruct (out !! 0%nat) as [features|]; simpl; [|done].
  destruct (decide (length features = 9%nat)) as [Hlen|Hlen].
  - destruct (draw_spiral_galaxy_features_spec normal i features w Hlen)
      as (g & layers & -> & _).
    eexists; split; [done |]. done.
  - by apply draw_spiral_galaxy_features_unpack.
Qed.

Lemma for_each_trace pinn start_state its (w : world) :
  match mapM (tagged_evolved_at pinn start_state) its with
  | Some calls => ∃ w', for_each (simulate_step normal pinn start_state) its w = Some w' ∧
                        renderer_calls w' = renderer_calls w ++ calls ∧
                        stdout w' = stdout w
  | None => for_each (simulate_step normal pinn start_state) its w = None
  end.
Proof.
  revert w. induction its as [|[i t] its IH]; intros w.
  - simpl. exists w. by rewrite app_nil_r.
  - rewrite mapM_cons, for_each_cons.
    change (tagged_evolved_at pinn start_state (i, t))
      with (y ← evolved_at pinn start_state t; Some (i, y)).
    pose proof (simulate_step_trace pinn start_state i t w) as Hstep.
    destruct (evolved_at pinn start_state t) as [y|].
    + destruct Hstep as (w1 & -> & Hc & Ho). cbn [mbind option_bind].
      specialize (IH w1).
      destruct (mapM (tagged_evolved_at pinn start_state) its) as [calls|];
        cbn [mbind option_bind] in *.
      * destruct IH as (w' & -> & Hc' & Ho'). simpl. exists w'.
        split; [done |]. rewrite Hc', Hc, Ho', Ho, <- app_assoc. done.
      * rewrite IH. done.
    + rewrite Hstep. done.
Qed.

(** The trace a simulation appends is [evolution_sequence], and the
    simulation raises exactly when that is undefined. *)
Lemma simulate_evolution_trace pinn vae start_state steps (w : world) :
  match evolution_sequence pinn start_state steps with
  | Some calls => ∃ w', simulate_evolution normal pinn vae start_state steps w = Some w' ∧
                        renderer_calls w' = renderer_calls w ++ calls ∧
                        stdout w' = stdout w
  | None => simulate_evolution normal pinn vae start_state steps w = None
  end.
Proof. apply for_each_trace. Qed.

End SimulatorProperties.

(** C5.  Two runs of [simulate_evolution] with the same weights, the same
    starting batch and the same step count, from any two worlds (generator
    states, files) and with any two samplers behind [np.random.normal],
    either both raise or both return, and then they have handed the same
    sequence of step indices and feature vectors to the Renderer. *)
Theorem simulate_evolution_deterministic {rng1 rng2 : Type}
    (normal1 : R → R → nat → rng1 → list R * rng1)
    (normal2 : R → R → nat → rng2 → list R * rng2)
    (pinn : GalaxyPINN) (vae1 vae2 : GalaxyVAE) (start_state : matrix)
    (steps : option nat) (w1 : @world rng1) (w2 : @world rng2) :
  (is_Some (simulate_evolution normal1 pinn vae1 start_state steps w1) ↔
   is_Some (simulate_evolution normal2 pinn vae2 start_state steps w2)) ∧
  ∀ w1' w2',
    simulate_evolution normal1 pinn vae1 start_state steps w1 = Some w1' →
    simulate_evolution normal2 pinn vae2 start_state steps w2 = Some w2' →
    ∃ calls, renderer_calls w1' = renderer_calls w1 ++ calls ∧
             renderer_calls w2' = renderer_calls w2 ++ calls.
Proof.
  pose proof (simulate_evolution_trace normal1 pinn vae1 start_state steps w1) as H1.
  pose proof (simulate_evolution_trace normal2 pinn vae2 start_state steps w2) as H2.
  destruct (evolution_sequence pinn start_state steps) as [calls|].
  - destruct H1 as (u1 & E1 & C1 & _), H2 as (u2 & E2 & C2 & _).
    rewrite E1, E2. split; [split; eauto |].
    intros w1' w2' [= <-] [= <-]. eauto.
  - rewrite H1, H2. split; [| done].
    split; intros [? ?]; done.
Qed.

Lemma linspace_unit n :
  (2 ≤ n)%nat → linspace 0 1 n = map (time_at n) (seq 0 n).
Proof.
  intros Hn. unfold linspace. destruct n as [|[|n]]; [lia | lia |].
  apply map_ext. intros i. unfold time_at, Rdiv. ring.
Qed.

Lemma time_at_ends n :
  (2 ≤ n)%nat →
  time_at n 0 = 0 ∧ time_at n (n - 1) = 1 ∧
  ∀ i, (S i < n)%nat → time_at n (S i) - time_at n i = 1 / INR (n - 1).
Proof.
  intros Hn. unfold time_at.
  assert (Hd : INR (n - 1) ≠ 0) by (apply not_0_INR; lia).
  split; [simpl; unfold Rdiv; ring |]. split; [by field |].
  intros i _. rewrite S_INR. by field.
Qed.

Lemma evolved_at_single pinn x τ :
  GalaxyPINN_shape 9 32 pinn → length x = 9%nat →
  ∃ y, GalaxyPINN_forward pinn [x] (Dim2 [[τ]]) = Some [y] ∧ length y = 9%nat ∧
       evolved_at pinn [x] (Dim1 [τ]) = Some y.
Proof.
  intros Hp Hx.
  destruct (GalaxyPINN_forward_shape 9 32 pinn 1 [x] [[τ]] Hp) as (out & Ho & Hs).
  { split; [done | by repeat constructor]. }
  { split; [done | by repeat constructor]. }
  destruct Hs as [Hl Hf]. destruct out as [|y [|? ?]]; simpl in Hl; try lia.
  inversion Hf as [|? ? Hy _]; subst.
  exists y. split; [done |]. split; [done |].
  unfold evolved_at. simpl. rewrite Ho. simpl. by rewrite decide_True.
Qed.

Lemma mapM_tagged pinn s (g : R → list R) times (k : nat → nat) :
  (∀ τ, evolved_at pinn s (Dim1 [τ]) = Some (g τ)) →
  mapM (tagged_evolved_at pinn s)
       (imap (λ i t, (k i, t)) (map Dim1 (unsqueeze1 times))) =
  Some (imap (λ i y, (k i, y)) (map g times)).
Proof.
  intros Hg. revert k. induction times as [|τ times IH]; intros k; [done |].
  simpl map. cbn [imap]. rewrite mapM_cons.
  change (tagged_evolved_at pinn s (k 0%nat, Dim1 [τ]))
    with (y ← evolved_at pinn s (Dim1 [τ]); Some (k 0%nat, y)).
  rewrite Hg. cbn [mbind option_bind].
  specialize (IH (k ∘ S)). unfold compose in *. cbv beta in *.
  rewrite IH. done.
Qed.

(** C7.  With the layers [GalaxyPINN()] constructs, a starting batch of one
    9-feature row [x] and [n >= 2] steps, [simulate_evolution] returns and
    has called the Renderer [n] times: call [i] carries the index [i] and
    the 9 features the PINN returns, outside gradient tracking, on [x]
    itself and the time [i / (n - 1)].  Those times start at 0, end at 1 and
    are [1 / (n - 1)] apart.  Without a step count the run is the one with
    15 steps. *)
Theorem simulate_evolution_steps {rng : Type}
    (normal : R → R → nat → rng → list R * rng)
    (pinn : GalaxyPINN) (vae : GalaxyVAE) (x : list R) (n : nat) (w : world) :
  GalaxyPINN_shape 9 32 pinn → length x = 9%nat → (2 ≤ n)%nat →
  ∃ w' ys,
    simulate_evolution normal pinn vae [x] (Some n) w = Some w' ∧
    renderer_calls w' = renderer_calls w ++ enumerate ys ∧
    length ys = n ∧
    (∀ i, (i < n)%nat → ∃ evolved y,
       call false (GalaxyPINN_forward pinn [x] (Dim2 [[time_at n i]])) = Some evolved ∧
       requires_grad evolved = false ∧ numpy evolved = Some [y] ∧
       ys !! i = Some y ∧ length y = 9%nat) ∧
    time_at n 0 = 0 ∧ time_at n (n - 1) = 1 ∧
    (∀ i, (S i < n)%nat → time_at n (S i) - time_at n i = 1 / INR (n - 1)) ∧
    simulate_evolution normal pinn vae [x] None w =
      simulate_evolution normal pinn vae [x] (Some 15%nat) w.
Proof.
  intros Hp Hx Hn.
  set (g := λ τ, default [] (evolved_at pinn [x] (Dim1 [τ]))).
  assert (Hg : ∀ τ, evolved_at pinn [x] (Dim1 [τ]) = Some (g τ)).
  { intros τ. destruct (evolved_at_single pinn x τ Hp Hx) as (y & _ & _ & Hy).
    unfold g. by rewrite Hy. }
  pose proof (simulate_evolution_trace normal pinn vae [x] (Some n) w) as Htr.
  unfold evolution_sequence, enumerate in Htr. cbn [default] in Htr.
  rewrite (mapM_tagged pinn [x] g _ (λ i, i) Hg) in Htr.
  destruct Htr as (w' & Hsim & Hcalls & _).
  exists w', (map g (linspace 0 1 n)).
  split; [exact Hsim |]. split; [exact Hcalls |].
  rewrite linspace_unit by done.
  split; [by rewrite !length_map, length_seq |]. split.
  - intros i Hi.
    destruct (evolved_at_single pinn x (time_at n i) Hp Hx) as (y & Hf & Hl & Hy).
    exists (mkOutput [y] false), y. rewrite Hf.
    split; [done |]. split; [done |]. split; [done |]. split; [| done].
    rewrite !list_lookup_fmap, lookup_seq_lt by done. simpl.
    unfold g. by rewrite Hy.
  - destruct (time_at_ends n Hn) as (H0 & H1 & Hd). done.
Qed.

Lemma simulate_evolution_steps_witness :
  let normal := constant_normal in
  let w := mkWorld 0%nat ∅ [] [] in
  ∃ w' ys,
    simulate_evolution normal zero_pinn zero_vae [clear_elliptical] (Some 3%nat) w = Some w' ∧
    renderer_calls w' = enumerate ys ∧ length ys = 3%nat.
Proof.
  intros normal w.
  destruct (simulate_evolution_steps normal zero_pinn zero_vae clear_elliptical 3 w)
    as (w' & ys & Hsim & Hcalls & Hlen & _).
  - exact zero_pinn_shape.
  - reflexivity.
  - lia.
  - exists w', ys. split; [exact Hsim |]. split; [exact Hcalls | exact Hlen].
Defined.

(** ** GIF assembly *)

#[global] Instance str_le_total : Total str_le.
Proof. intros a b. apply String.leb_total. Qed.

Lemma sorted_Sorted l : Sorted str_le (sorted l).
Proof. unfold sorted. apply Sorted_merge_sort, _. Qed.

Lemma elem_of_sorted l p : p ∈ sorted l ↔ p ∈ l.
Proof. unfold sorted. by rewrite merge_sort_Permutation. Qed.

Lemma elem_of_glob folder (fs : gmap string file) p :
  p ∈ glob folder fs ↔ glob_match folder p = true ∧ is_Some (fs !! p).
Proof.
  unfold glob. rewrite list_elem_of_filter, list_elem_of_fmap.
  split.
  - intros [Hm ([q x] & -> & Hin)]. split; [done |].
    apply elem_of_map_to_list in Hin. eauto.
  - intros [Hm [x Hx]]. split; [done |].
    exists (p, x). split; [done |]. by apply elem_of_map_to_list.
Qed.

Lemma NoDup_glob folder (fs : gmap string file) : NoDup (glob folder fs).
Proof. unfold glob. apply NoDup_filter, NoDup_fst_map_to_list. Qed.

Lemma Image_open_Some (fs : gmap string file) p img :
  Image_open fs p = Some img ↔ fs !! p = Some img ∧ img ≠ Other.
Proof.
  unfold Image_open. destruct (fs !! p) as [[fig|imgs d l|]|]; split;
    try (intros [= <-]; done); try (intros [[= <-] ?]; done); intros [? ?]; done.
Qed.

(** C8.  [create_gif] reads the paths of the folder that match
    [evolution_step_*.png], each once, in sorted order.  If there is none
    it returns after printing the warning, with the files as they were.  If
    there are some and PIL opens them all, it writes one file, [gif_name],
    holding the opened images in that sorted order, and prints that the GIF
    was saved. *)
Theorem create_gif_guard {rng : Type} (folder gif_name : option string)
    (duration : option Z) (w : @world rng) :
  let image_files := sorted (glob (default "results" folder) (files w)) in
  Sorted str_le image_files ∧ NoDup image_files ∧
  (∀ p, p ∈ image_files ↔
        glob_match (default "results" folder) p = true ∧ is_Some (files w !! p)) ∧
  (image_files = [] →
   create_gif folder gif_name duration w =
     Some (mkWorld (np_random w) (files w)
             (stdout w ++ ["⚠️ No evolution images found."])
             (renderer_calls w))) ∧
  (∀ images,
     image_files ≠ [] →
     mapM (Image_open (files w)) image_files = Some images →
     Forall2 (λ p img, files w !! p = Some img) image_files images ∧
     create_gif folder gif_name duration w =
       Some (mkWorld (np_random w)
               (<[default "Train_evolution.gif" gif_name :=
                    Gif images (default 200%Z duration) 0]> (files w))
               (stdout w ++ ["🎞️ GIF saved as " +:+ default "Train_evolution.gif" gif_name])
               (renderer_calls w))).
Proof.
  intros image_files. split; [apply sorted_Sorted |]. split.
  { unfold image_files, sorted. rewrite merge_sort_Permutation. apply NoDup_glob. }
  split.
  { intros p. unfold image_files. by rewrite elem_of_sorted, elem_of_glob. }
  split.
  - intros Hnil. unfold create_gif. fold image_files. by rewrite Hnil.
  - intros images Hne Hopen. split.
    + apply mapM_Some_1 in Hopen.
      eapply Forall2_impl; [exact Hopen |].
      intros p img Hp. by apply Image_open_Some in Hp as [? _].
    + unfold create_gif. fold image_files. rewrite Hopen. simpl.
      destruct images as [|img images]; [| done].
      apply length_mapM in Hopen. destruct image_files; simpl in Hopen; done.
Qed.

Lemma create_gif_guard_witness :
  create_gif None None None two_frames =
    Some (mkWorld 0%nat
            (<["Train_evolution.gif" := Gif [frame_a; frame_b] 200 0]> (files two_frames))
            ["🎞️ GIF saved as Train_evolution.gif"] []) ∧
  create_gif None None None no_frames =
    Some (mkWorld 0%nat (files no_frames) ["⚠️ No evolution images found."] []).
Proof.
  split.
  - destruct (create_gif_guard None None None two_frames)
      as (_ & _ & _ & _ & Hsave).
    destruct (Hsave [frame_a; frame_b]) as [_ Hgif].
    + vm_compute. discriminate.
    + vm_compute. reflexivity.
    + exact Hgif.
  - destruct (create_gif_guard None None None no_frames)
      as (_ & _ & _ & Hwarn & _).
    apply Hwarn. vm_compute. reflexivity.
Defined.

(** The frames the simulator writes are the frames [create_gif] looks for. *)
Example glob_match_evolution_step :
  glob_match "results" (evolution_step_png 7) = true ∧
  glob_match "results" "results/vae_confusion_matrix.png" = false ∧
  glob_match "results" "results/evolution_step_/07.png" = false.
Proof. vm_compute. done. Qed.

(** ** Evaluation records *)

Lemma MSELoss_nonneg input target : 0 <= MSELoss input target.
Proof.
  unfold MSELoss, torch_mean, tsquare, tmap. apply mean_nonneg.
  apply Forall_concat, Forall_map, Forall_true. intros r. simpl.
  apply Forall_map, Forall_true. intros a. simpl. apply pow2_ge_0.
Qed.

(** [rmse] is the root of [mse]: it is not negative and its square is [mse]. *)
Definition root_of (mse rmse : R) : Prop :=
  rmse = sqrt mse ∧ 0 <= mse ∧ 0 <= rmse ∧ rmse * rmse = mse.

Lemma root_of_MSELoss input target :
  root_of (MSELoss input target) (sqrt (MSELoss input target)).
Proof.
  pose proof (MSELoss_nonneg input target) as H.
  split; [done |]. split; [done |]. split; [apply sqrt_pos |].
  by apply sqrt_sqrt.
Qed.

Lemma mapM_total {A B : Type} (f : A → option B) (g : A → B) l :
  (∀ a, a ∈ l → f a = Some (g a)) → mapM f l = Some (map g l).
Proof.
  induction l as [|a l IH]; intros H; [done |].
  rewrite mapM_cons, (H a) by left. cbn [mbind option_bind].
  rewrite IH; [done |]. intros b Hb. apply H. by right.
Qed.

Section MetricsProperties.

Context {rng : Type}.
Variable accuracy_score : list Z → list Z → R.
Variable f1_score_micro : list Z → list Z → R.
Variable confusion_matrix : list Z → list Z → list (list nat).

(** The record of one time point, as [evaluate_pinn] fills it from the
    predictions [pred] of that time point. *)
Definition timepoint_record (data pred : matrix) (t : R) : gmap string R :=
  <["t" := t]> (<["MSE" := MSELoss pred data]> (<["RMSE" := sqrt (MSELoss pred data)]>
  (<["Accuracy" := accuracy_score (concat (binarize 0.5 data)) (concat (binarize 0.5 pred))]>
  (<["F1 Score" := f1_score_micro (concat (binarize 0.5 data)) (concat (binarize 0.5 pred))]>
   ∅)))).

Lemma timepoint_record_lookup data pred t :
  let r := timepoint_record data pred t in
  r !! "t" = Some t ∧
  r !! "MSE" = Some (MSELoss pred data) ∧
  r !! "RMSE" = Some (sqrt (MSELoss pred data)) ∧
  r !! "Accuracy" =
    Some (accuracy_score (concat (binarize 0.5 data)) (concat (binarize 0.5 pred))) ∧
  r !! "F1 Score" =
    Some (f1_score_micro (concat (binarize 0.5 data)) (concat (binarize 0.5 pred))) ∧
  dom r = ({["t"; "MSE"; "RMSE"; "Accuracy"; "F1 Score"]} : gset string).
Proof.
  unfold timepoint_record. cbv zeta.
  repeat split; by simplify_map_eq.
Qed.

Lemma evaluate_pinn_at_inv pinn data t r :
  evaluate_pinn_at accuracy_score f1_score_micro pinn data 0.5 t = Some r →
  ∃ pred t_item, item t = Some t_item ∧ r = timepoint_record data pred t_item.
Proof.
  unfold evaluate_pinn_at. intros H.
  destruct (expand_col (length data) t) as [t_tensor|]; simpl in H; [|done].
  destruct (GalaxyPINN_forward pinn data t_tensor) as [pred|]; simpl in H; [|done].
  destruct (item t) as [t_item|]; simpl in H; [|done].
  injection H as <-. by exists pred, t_item.
Qed.

Lemma evaluate_pinn_inv pinn data t_values (w : @world rng) d w' :
  evaluate_pinn accuracy_score f1_score_micro confusion_matrix
    pinn data t_values w = Some (d, w') →
  ∃ ts results,
    iter_tensor (default (Dim1 (linspace 0 1 10)) t_values) = Some ts ∧
    mapM (evaluate_pinn_at accuracy_score f1_score_micro pinn data 0.5) ts = Some results ∧
    d !! "Detail" = Some (Records results).
Proof.
  unfold evaluate_pinn. cbv zeta. intros H.
  destruct (iter_tensor _) as [ts|]; simpl in H; [|done].
  destruct (mapM (evaluate_pinn_at _ _ _ _ _) ts) as [results|] eqn:Hres;
    simpl in H; [|done].
  destruct (mapM (λ r : gmap string R, r !! "MSE") results); simpl in H; [|done].
  destruct (mapM (λ r : gmap string R, r !! "RMSE") results); simpl in H; [|done].
  destruct (mapM (λ r : gmap string R, r !! "Accuracy") results); simpl in H; [|done].
  destruct (mapM (λ r : gmap string R, r !! "F1 Score") results); simpl in H; [|done].
  destruct (ts !! _) as [mid_t|]; simpl in H; [|done].
  destruct (expand_col (length data) mid_t) as [mid_t_tensor|]; simpl in H; [|done].
  destruct (GalaxyPINN_forward pinn data mid_t_tensor) as [mid|]; simpl in H; [|done].
  destruct (item mid_t) as [mid_t_item|]; simpl in H; [|done].
  injection H as <- <-. exists ts, results.
  split; [done |]. split; [exact Hres |]. by simplify_map_eq.
Qed.

(** C10.  In the dictionary [evaluate_vae] returns, and in every record of
    the detail list [evaluate_pinn] returns, the value under RMSE is the
    square root of the value under MSE of the same record; the MSE is never
    negative, so the RMSE squared gives it back. *)
Theorem rmse_is_root_of_mse (vae : GalaxyVAE) (noise : nat → nat → R)
    (pinn : GalaxyPINN) (data : matrix) (threshold : option R)
    (t_values : option tensor) (w : @world rng) :
  (∀ d w',
     evaluate_vae accuracy_score f1_score_micro confusion_matrix
       vae noise data threshold w = Some (d, w') →
     ∃ mse rmse, d !! "MSE" = Some (Float mse) ∧ d !! "RMSE" = Some (Float rmse) ∧
                 root_of mse rmse) ∧
  (∀ d w',
     evaluate_pinn accuracy_score f1_score_micro confusion_matrix
       pinn data t_values w = Some (d, w') →
     ∃ results, d !! "Detail" = Some (Records results) ∧
       Forall (λ r : gmap string R,
                 ∃ mse rmse, r !! "MSE" = Some mse ∧ r !! "RMSE" = Some rmse ∧
                             root_of mse rmse) results).
Proof.
  split.
  - intros d w'. unfold evaluate_vae. intros H.
    destruct (GalaxyVAE_forward vae noise data) as [[[x_hat mu] logvar]|];
      simpl in H; [|done].
    injection H as <- <-.
    exists (MSELoss x_hat data), (sqrt (MSELoss x_hat data)).
    split; [by simplify_map_eq |]. split; [by simplify_map_eq |].
    apply root_of_MSELoss.
  - intros d w' H.
    destruct (evaluate_pinn_inv _ _ _ _ _ _ H) as (ts & results & _ & Hres & Hd).
    exists results. split; [exact Hd |].
    apply mapM_Some_1 in Hres. clear Hd H.
    induction Hres as [|t r ts results Hr _ IH]; constructor; [| exact IH].
    apply evaluate_pinn_at_inv in Hr as (pred & t_item & _ & ->).
    destruct (timepoint_record_lookup data pred t_item) as (_ & Hm & Hrm & _).
    exists (MSELoss pred data), (sqrt (MSELoss pred data)).
    split; [exact Hm |]. split; [exact Hrm |]. apply root_of_MSELoss.
Qed.

(** The values stored under [key] in a list of records. *)
Definition column (key : string) (results : list (gmap string R)) : list R :=
  map (λ r : gmap string R, default 0 (r !! key)) results.

(** The dictionary [evaluate_pinn] returns, given the records of the time
    points and the confusion matrix of the middle one. *)
Definition pinn_summary (results : list (gmap string R)) (cm : list (list nat))
    : gmap string dict_value :=
  <["Detail" := Records results]>
  (<["Average MSE" := Float (mean (column "MSE" results))]>
  (<["Average RMSE" := Float (mean (column "RMSE" results))]>
  (<["Average Accuracy" := Float (mean (column "Accuracy" results))]>
  (<["Average F1 Score" := Float (mean (column "F1 Score" results))]>
  (<["Mid-t Confusion Matrix" := ConfusionMatrix cm]> ∅))))).

(** [r] is the record of time [τ]: the metrics of the PINN's predictions on
    the whole of [data] at that time. *)
Definition record_of (pinn : GalaxyPINN) (data : matrix) (τ : R)
    (r : gmap string R) : Prop :=
  ∃ pred, GalaxyPINN_forward pinn data (Dim2 (replicate (length data) [τ])) = Some pred ∧
          r = timepoint_record data pred τ.

Lemma shape_replicate n (τ : R) : shape n 1 (replicate n [τ]).
Proof.
  split; [apply length_replicate |]. by apply Forall_replicate.
Qed.

Lemma evaluate_pinn_at_run pinn data n τ :
  GalaxyPINN_shape 9 32 pinn → shape n 9 data →
  ∃ r, evaluate_pinn_at accuracy_score f1_score_micro pinn data 0.5 (Dim0 τ) = Some r ∧
       record_of pinn data τ r.
Proof.
  intros Hp Hd.
  destruct (GalaxyPINN_forward_shape 9 32 pinn n data (replicate n [τ]) Hp Hd
              (shape_replicate n τ)) as (pred & Hf & _).
  assert (Hn : length data = n) by apply Hd.
  exists (timepoint_record data pred τ). split.
  - unfold evaluate_pinn_at. cbn [expand_col mbind option_bind].
    rewrite Hn, Hf. reflexivity.
  - exists pred. by rewrite Hn.
Qed.

Lemma evaluate_pinn_loop pinn data n times :
  GalaxyPINN_shape 9 32 pinn → shape n 9 data →
  ∃ results,
    mapM (evaluate_pinn_at accuracy_score f1_score_micro pinn data 0.5)
         (map Dim0 times) = Some results ∧
    Forall2 (record_of pinn data) times results.
Proof.
  intros Hp Hd. induction times as [|τ times (results & Hm & Hf)].
  - by exists [].
  - destruct (evaluate_pinn_at_run pinn data n τ Hp Hd) as (r & Hr & Hrec).
    exists (r :: results). split; [| by constructor].
    simpl map. rewrite mapM_cons, Hr. cbn [mbind option_bind]. by rewrite Hm.
Qed.

Lemma column_lookup pinn data times results key :
  key ∈ ["MSE"; "RMSE"; "Accuracy"; "F1 Score"] →
  Forall2 (record_of pinn data) times results →
  mapM (λ r : gmap string R, r !! key) results = Some (column key results).
Proof.
  intros Hk Hf. unfold column. apply mapM_total. intros r Hr.
  apply list_elem_of_lookup in Hr as [i Hi].
  destruct (Forall2_lookup_r _ _ _ _ _ Hf Hi) as (τ & _ & pred & _ & ->).
  destruct (timepoint_record_lookup data pred τ) as (_ & H1 & H2 & H3 & H4 & _).
  repeat (apply elem_of_cons in Hk as [-> | Hk]);
    [by rewrite H1 | by rewrite H2 | by rewrite H3 | by rewrite H4 |].
  by apply elem_of_nil in Hk.
Qed.

Lemma evaluate_pinn_run pinn data n times (w : @world rng) :
  GalaxyPINN_shape 9 32 pinn → shape n 9 data → times ≠ [] →
  ∃ results cm w',
    evaluate_pinn accuracy_score f1_score_micro confusion_matrix
      pinn data (Some (Dim1 times)) w = Some (pinn_summary results cm, w') ∧
    Forall2 (record_of pinn data) times results ∧
    stdout w' = stdout w ∧ renderer_calls w' = renderer_calls w.
Proof.
  intros Hp Hd Hne.
  destruct (evaluate_pinn_loop pinn data n times Hp Hd) as (results & Hm & Hf).
  assert (Hmid : ∃ τ, map Dim0 times !! (length (map Dim0 times) / 2)%nat = Some (Dim0 τ)).
  { rewrite length_map, list_lookup_fmap.
    destruct (lookup_lt_is_Some_2 times (length times / 2)%nat) as [τ Hτ].
    - destruct times; [done |]. apply Nat.div_lt; simpl; lia.
    - exists τ. by rewrite Hτ. }
  destruct Hmid as [τ Hτ].
  destruct (GalaxyPINN_forward_shape 9 32 pinn n data (replicate n [τ]) Hp Hd
              (shape_replicate n τ)) as (mid & Hmidf & _).
  assert (Hn : length data = n) by apply Hd.
  assert (Hrun : ∃ cm w',
    evaluate_pinn accuracy_score f1_score_micro confusion_matrix
      pinn data (Some (Dim1 times)) w = Some (pinn_summary results cm, w') ∧
    stdout w' = stdout w ∧ renderer_calls w' = renderer_calls w);
    [| destruct Hrun as (cm & w' & Hrun & Ho & Hc); by exists results, cm, w'].
  set (cm := confusion_matrix (concat (binarize 0.5 data)) (concat (binarize 0.5 mid))).
  exists cm,
    (mkWorld (np_random w)
       (<["results/pinn_confusion_matrix.png" :=
            Png (HeatmapFigure "PINN Prediction Confusion Matrix" (Some τ) cm)]>
          (files w))
       (stdout w) (renderer_calls w)).
  split; [| split; reflexivity].
  unfold evaluate_pinn. cbv zeta.
  change (iter_tensor (default (Dim1 (linspace 0 1 10)) (Some (Dim1 times))))
    with (Some (map Dim0 times)).
  cbn [mbind option_bind]. rewrite Hm. cbn [mbind option_bind].
  rewrite !(column_lookup pinn data times results) by (done || set_solver).
  cbn [fmap option_fmap option_map mbind option_bind].
  rewrite Hτ. cbn [mbind option_bind expand_col].
  rewrite Hn, Hmidf. reflexivity.
Qed.

(** C6.  With the layers [GalaxyPINN()] constructs and a non-empty dataset
    of 9-feature rows, [evaluate_pinn] on [linspace(0, 1, 10)] (also its
    default) returns a dictionary whose detail list has exactly 10 records,
    record [i] holding t = i/9 and the MSE, RMSE, Accuracy and F1 Score of
    the predictions at that time and nothing else; the four averages are
    there, each the mean of the 10 values of its metric. *)
Theorem evaluate_pinn_ten_records (pinn : GalaxyPINN) (data : matrix) (n : nat)
    (w : @world rng) :
  GalaxyPINN_shape 9 32 pinn → shape n 9 data → n ≠ 0%nat →
  ∃ d w' results,
    evaluate_pinn accuracy_score f1_score_micro confusion_matrix
      pinn data (Some (Dim1 (linspace 0 1 10))) w = Some (d, w') ∧
    evaluate_pinn accuracy_score f1_score_micro confusion_matrix
      pinn data None w = Some (d, w') ∧
    d !! "Detail" = Some (Records results) ∧
    length results = 10%nat ∧
    (∀ i, (i < 10)%nat → ∃ r,
       results !! i = Some r ∧ record_of pinn data (time_at 10 i) r ∧
       r !! "t" = Some (time_at 10 i) ∧
       is_Some (r !! "MSE") ∧ is_Some (r !! "RMSE") ∧
       is_Some (r !! "Accuracy") ∧ is_Some (r !! "F1 Score") ∧
       dom r = ({["t"; "MSE"; "RMSE"; "Accuracy"; "F1 Score"]} : gset string)) ∧
    (∀ key, key ∈ ["MSE"; "RMSE"; "Accuracy"; "F1 Score"] →
       ∃ vals, mapM (λ r : gmap string R, r !! key) results = Some vals ∧
               length vals = 10%nat ∧
               d !! ("Average " +:+ key) = Some (Float (mean vals))).
Proof.
  intros Hp Hd Hn.
  destruct (evaluate_pinn_run pinn data n (linspace 0 1 10) w Hp Hd)
    as (results & cm & w' & Hrun & Hf & _); [done |].
  exists (pinn_summary results cm), w', results.
  split; [exact Hrun |]. split; [exact Hrun |].
  split; [by unfold pinn_summary; simplify_map_eq |].
  assert (Hlen : length results = 10%nat).
  { apply Forall2_length in Hf. by rewrite <- Hf. }
  split; [exact Hlen |]. split.
  - intros i Hi.
    destruct (lookup_lt_is_Some_2 results i) as [r Hr]; [lia |].
    exists r. split; [exact Hr |].
    assert (Hτ : linspace 0 1 10 !! i = Some (time_at 10 i)).
    { rewrite linspace_unit by lia.
      by rewrite list_lookup_fmap, lookup_seq_lt. }
    pose proof (Forall2_lookup_lr _ _ _ _ _ _ Hf Hτ Hr) as Hrec.
    split; [exact Hrec |]. destruct Hrec as (pred & _ & ->).
    destruct (timepoint_record_lookup data pred (time_at 10 i))
      as (Ht & H1 & H2 & H3 & H4 & Hdom).
    rewrite Ht, H1, H2, H3, H4. repeat split; eauto.
  - intros key Hk. exists (column key results).
    split; [by apply (column_lookup pinn data (linspace 0 1 10)) |].
    split; [unfold column; by rewrite length_map |].
    unfold pinn_summary.
    repeat (apply elem_of_cons in Hk as [-> | Hk]); try by simplify_map_eq.
    by apply elem_of_nil in Hk.
Qed.

End MetricsProperties.

Lemma evaluate_pinn_ten_records_witness :
  ∃ d w' results,
    evaluate_pinn agreement agreement pair_counts
      zero_pinn [clear_elliptical] None no_frames = Some (d, w') ∧
    d !! "Detail" = Some (Records results) ∧ length results = 10%nat ∧
    is_Some (d !! "Average MSE") ∧ is_Some (d !! "Average RMSE") ∧
    is_Some (d !! "Average Accuracy") ∧ is_Some (d !! "Average F1 Score").
Proof.
  destruct (evaluate_pinn_ten_records agreement agreement pair_counts
              zero_pinn [clear_elliptical] 1 no_frames)
    as (d & w' & results & _ & Hrun & Hd & Hl & _ & Havg).
  - exact zero_pinn_shape.
  - split; [reflexivity | repeat constructor].
  - discriminate.
  - exists d, w', results.
    split; [exact Hrun |]. split; [exact Hd |]. split; [exact Hl |].
    destruct (Havg "MSE") as (? & _ & _ & H1); [set_solver |].
    destruct (Havg "RMSE") as (? & _ & _ & H2); [set_solver |].
    destruct (Havg "Accuracy") as (? & _ & _ & H3); [set_solver |].
    destruct (Havg "F1 Score") as (? & _ & _ & H4); [set_solver |].
    split; [eexists; exact H1 |]. split; [eexists; exact H2 |].
    split; [eexists; exact H3 | eexists; exact H4].
Defined.

Lemma GalaxyVAE_forward_total vae input_dim latent_dim n noise x :
  GalaxyVAE_shape input_dim latent_dim vae → shape n input_dim x →
  is_Some (GalaxyVAE_forward vae noise x).
Proof.
  intros Hvae Hx.
  destruct (encode_shape _ _ _ _ _ Hvae Hx) as (mu & lv & He & Hmu & Hlv).
  pose proof (shape_reparameterize _ _ noise _ _ Hmu Hlv) as Hz.
  destruct (decoder_shape _ _ _ _ _ Hvae Hz) as (x_hat & Hdec & _).
  unfold GalaxyVAE_forward. rewrite He. simpl. rewrite Hdec. by eexists.
Qed.

Lemma zero_vae_shape : GalaxyVAE_shape 9 3 zero_vae.
Proof. repeat split; apply zero_linear_shape. Qed.

Lemma rmse_is_root_of_mse_witness :
  ∃ d w' mse rmse,
    evaluate_vae agreement agreement pair_counts
      zero_vae (λ _ _, 0) [clear_elliptical] None no_frames = Some (d, w') ∧
    d !! "MSE" = Some (Float mse) ∧ d !! "RMSE" = Some (Float rmse) ∧
    root_of mse rmse.
Proof.
  destruct (GalaxyVAE_forward_total zero_vae 9 3 1 (λ _ _, 0) [clear_elliptical])
    as [[[x_hat mu] logvar] Hfwd].
  - exact zero_vae_shape.
  - split; [reflexivity | repeat constructor].
  - assert (Hrun : is_Some (evaluate_vae agreement agreement pair_counts
                     zero_vae (λ _ _, 0) [clear_elliptical] None no_frames)).
    { unfold evaluate_vae. rewrite Hfwd. by eexists. }
    destruct Hrun as [[d w'] Hrun].
    destruct (rmse_is_root_of_mse agreement agreement pair_counts
                zero_vae (λ _ _, 0) zero_pinn [clear_elliptical] None None no_frames)
      as [Hvae _].
    destruct (Hvae d w' Hrun) as (mse & rmse & H1 & H2 & H3).
    by exists d, w', mse, rmse.
Defined.

Lemma evolution_sequence_defined pinn x steps :
  GalaxyPINN_shape 9 32 pinn → length x = 9%nat →
  is_Some (evolution_sequence pinn [x] steps).
Proof.
  intros Hp Hx.
  set (g := λ τ, default [] (evolved_at pinn [x] (Dim1 [τ]))).
  assert (Hg : ∀ τ, evolved_at pinn [x] (Dim1 [τ]) = Some (g τ)).
  { intros τ. destruct (evolved_at_single pinn x τ Hp Hx) as (y & _ & _ & Hy).
    unfold g. by rewrite Hy. }
  unfold evolution_sequence, enumerate.
  rewrite (mapM_tagged pinn [x] g _ (λ i, i) Hg). by eexists.
Qed.

Lemma simulate_evolution_deterministic_witness :
  ∃ (w1' w2' : @world nat) calls,
    simulate_evolution constant_normal zero_pinn zero_vae
      [clear_elliptical] None no_frames = Some w1' ∧
    simulate_evolution constant_normal zero_pinn zero_vae
      [clear_elliptical] None two_frames = Some w2' ∧
    renderer_calls w1' = calls ∧ renderer_calls w2' = calls.
Proof.
  destruct (evolution_sequence_defined zero_pinn clear_elliptical None
              zero_pinn_shape eq_refl) as [calls Hseq].
  pose proof (simulate_evolution_trace constant_normal zero_pinn zero_vae
                [clear_elliptical] None no_frames) as H1.
  rewrite Hseq in H1. destruct H1 as (w1' & H1 & _).
  destruct (simulate_evolution_deterministic constant_normal constant_normal
              zero_pinn zero_vae zero_vae [clear_elliptical] None
              no_frames two_frames) as [[Hboth _] Hsame].
  destruct Hboth as [w2' H2]; [by eexists |].
  destruct (Hsame w1' w2' H1 H2) as (calls' & Hc1 & Hc2).
  exists w1', w2', calls'. split; [exact H1 |]. split; [exact H2 |].
  split; [exact Hc1 | exact Hc2].
Defined.

(** * Part III: further properties of the script *)

(** ** Entries of a tensor *)

Lemma matrix_ext n k (a b : matrix) :
  shape n k a → shape n k b →
  (∀ i j, (i < n)%nat → (j < k)%nat → entry a i j = entry b i j) → a = b.
Proof.
  intros [Hla Hfa] [Hlb Hfb] H.
  apply (nth_ext a b [] []); [congruence |].
  intros i Hi.
  assert (Hra : length (nth i a []) = k).
  { rewrite Forall_forall in Hfa. apply Hfa, list_elem_of_In, nth_In. lia. }
  assert (Hrb : length (nth i b []) = k).
  { rewrite Forall_forall in Hfb. apply Hfb, list_elem_of_In, nth_In. lia. }
  apply (nth_ext _ _ 0 0); [congruence |].
  intros j Hj. apply H; lia.
Qed.

Lemma all_entries (P : R → Prop) n k (m : matrix) :
  shape n k m →
  (Forall (Forall P) m ↔ ∀ i j, (i < n)%nat → (j < k)%nat → P (entry m i j)).
Proof.
  intros [Hl Hf]. split.
  - intros HP i j Hi Hj. unfold entry.
    assert (Hin : nth i m [] ∈ m) by (apply list_elem_of_In, nth_In; lia).
    rewrite Forall_forall in HP, Hf.
    specialize (HP _ Hin). specialize (Hf _ Hin).
    rewrite Forall_forall in HP. apply HP, list_elem_of_In, nth_In. lia.
  - intros H. apply Forall_forall. intros r Hr.
    apply list_elem_of_In, (In_nth _ _ []) in Hr as (i & Hi & <-).
    assert (Hk : length (nth i m []) = k).
    { rewrite Forall_forall in Hf. apply Hf, list_elem_of_In, nth_In. lia. }
    apply Forall_forall. intros a Ha.
    apply list_elem_of_In, (In_nth _ _ 0) in Ha as (j & Hj & <-).
    apply H; lia.
Qed.

Lemma sum_over_nonneg n f :
  (∀ i, (i < n)%nat → 0 <= f i) → 0 <= sum_over n f.
Proof.
  intros H. unfold sum_over. apply Rsum_nonneg, Forall_map, Forall_forall.
  intros i Hi. apply list_elem_of_In, in_seq in Hi. apply H. lia.
Qed.

Lemma sum_over_zero_inv n f :
  (∀ i, (i < n)%nat → 0 <= f i) → sum_over n f = 0 →
  ∀ i, (i < n)%nat → f i = 0.
Proof.
  revert f. induction n as [|n IH]; intros f Hpos Hsum i Hi; [lia |].
  rewrite sum_over_S in Hsum.
  assert (H0 : 0 <= f 0%nat) by (apply Hpos; lia).
  assert (Hrest : 0 <= sum_over n (λ i, f (S i))).
  { apply sum_over_nonneg. intros j Hj. apply Hpos. lia. }
  destruct i as [|i]; [lra |].
  apply (IH (λ i, f (S i))); [| lra | lia].
  intros j Hj. apply Hpos. lia.
Qed.

Lemma sum_over_zero n f : (∀ i, (i < n)%nat → f i = 0) → sum_over n f = 0.
Proof.
  intros H. rewrite (sum_over_ext n f (λ _, 0)) by done.
  unfold sum_over. apply Rsum_zero, Forall_map, Forall_true. done.
Qed.

(** ** The minimum of the VAE loss *)

(** The KL term of [vae_loss]. *)
Definition kl_term (mu logvar : matrix) : R :=
  -0.5 * torch_sum (tsub (tsub (tmap (Rplus 1) logvar) (tsquare mu)) (texp logvar)).

Definition kl_summand (m l : R) : R := 1 + l - m ^ 2 - exp l.

Lemma kl_summand_nonpos m l : kl_summand m l <= 0.
Proof.
  unfold kl_summand. pose proof (exp_ineq1_le l). pose proof (pow2_ge_0 m). lra.
Qed.

Lemma kl_summand_zero m l : kl_summand m l = 0 ↔ m = 0 ∧ l = 0.
Proof.
  unfold kl_summand. split.
  - intros H. pose proof (exp_ineq1_le l) as Hl. pose proof (pow2_ge_0 m) as Hm.
    assert (Hm0 : m ^ 2 = 0) by lra.
    assert (Hl0 : 1 + l = exp l) by lra.
    split.
    + apply Rsqr_0_uniq. unfold Rsqr. lra.
    + destruct (Req_dec l 0) as [|Hne]; [done |].
      pose proof (exp_ineq1 l Hne). lra.
  - intros [-> ->]. rewrite exp_0. lra.
Qed.

Lemma kl_term_entries n k mu logvar :
  shape n k mu → shape n k logvar →
  kl_term mu logvar =
    -0.5 * sum_over n (λ i, sum_over k (λ j,
             kl_summand (entry mu i j) (entry logvar i j))).
Proof.
  intros Hmu Hlv. unfold kl_term, tsquare, texp, tsub. f_equal.
  rewrite (torch_sum_entries n k)
    by (repeat first [apply shape_tzip | apply shape_tmap]; done).
  apply sum_over_ext. intros i Hi. apply sum_over_ext. intros j Hj.
  rewrite (entry_tzip n k) by (repeat first [apply shape_tzip | apply shape_tmap]; done).
  rewrite (entry_tzip n k) by (repeat first [apply shape_tzip | apply shape_tmap]; done).
  rewrite !(entry_tmap n k) by done. reflexivity.
Qed.

Lemma kl_term_nonneg n k mu logvar :
  shape n k mu → shape n k logvar → 0 <= kl_term mu logvar.
Proof.
  intros Hmu Hlv. rewrite (kl_term_entries n k) by done.
  assert (0 <= sum_over n (λ i, sum_over k (λ j,
             - kl_summand (entry mu i j) (entry logvar i j)))) as H.
  { apply sum_over_nonneg. intros i _. apply sum_over_nonneg. intros j _.
    pose proof (kl_summand_nonpos (entry mu i j) (entry logvar i j)). lra. }
  assert (Hopp : ∀ m f, sum_over m (λ j, - f j) = - sum_over m f).
  { intros m f. unfold sum_over. induction (seq 0 m) as [|a l IH]; simpl; [lra |].
    rewrite IH. lra. }
  rewrite (sum_over_ext n _ (λ i, - sum_over k (λ j,
             kl_summand (entry mu i j) (entry logvar i j)))) in H
    by (intros; apply Hopp).
  rewrite Hopp in H. lra.
Qed.

Lemma kl_term_zero n k mu logvar :
  shape n k mu → shape n k logvar →
  (kl_term mu logvar = 0 ↔
   Forall (Forall (λ a, a = 0)) mu ∧ Forall (Forall (λ a, a = 0)) logvar).
Proof.
  intros Hmu Hlv. rewrite (kl_term_entries n k) by done.
  rewrite (all_entries _ n k mu Hmu), (all_entries _ n k logvar Hlv).
  set (f := λ i j, - kl_summand (entry mu i j) (entry logvar i j)).
  assert (Hf : ∀ i j, 0 <= f i j).
  { intros i j. unfold f.
    pose proof (kl_summand_nonpos (entry mu i j) (entry logvar i j)). lra. }
  assert (Hopp : ∀ m g, sum_over m (λ j, - g j) = - sum_over m g).
  { intros m g. unfold sum_over. induction (seq 0 m) as [|a l IH]; simpl; [lra |].
    rewrite IH. lra. }
  assert (Hsum : sum_over n (λ i, sum_over k (λ j,
                   kl_summand (entry mu i j) (entry logvar i j))) =
                 - sum_over n (λ i, sum_over k (f i))).
  { rewrite <- Hopp. apply sum_over_ext. intros i _.
    rewrite <- Hopp. apply sum_over_ext. intros j _. unfold f. lra. }
  rewrite Hsum. split.
  - intros H0.
    assert (Hz : sum_over n (λ i, sum_over k (f i)) = 0) by lra.
    assert (Hij : ∀ i j, (i < n)%nat → (j < k)%nat → f i j = 0).
    { intros i j Hi Hj.
      pose proof (sum_over_zero_inv n _
        (λ i _, sum_over_nonneg k (f i) (λ j _, Hf i j)) Hz i Hi) as Hrow.
      apply (sum_over_zero_inv k (f i) (λ j _, Hf i j) Hrow j Hj). }
    split; intros i j Hi Hj; specialize (Hij i j Hi Hj); unfold f in Hij;
      assert (Hk : kl_summand (entry mu i j) (entry logvar i j) = 0) by lra;
      apply kl_summand_zero in Hk; tauto.
  - intros [Hm Hl].
    rewrite sum_over_zero; [lra |]. intros i Hi.
    apply sum_over_zero. intros j Hj. unfold f.
    assert (Hk : kl_summand (entry mu i j) (entry logvar i j) = 0)
      by (apply kl_summand_zero; auto).
    lra.
Qed.

Lemma sum_of_squared_error_nonneg n d a b : 0 <= sum_of_squared_error n d a b.
Proof.
  unfold sum_of_squared_error. apply sum_over_nonneg. intros i _.
  apply sum_over_nonneg. intros j _. apply pow2_ge_0.
Qed.

Lemma mse_loss_sum_zero n d input target :
  shape n d input → shape n d target →
  (mse_loss_sum input target = 0 ↔ input = target).
Proof.
  intros Hi Ht. rewrite (mse_loss_sum_entries n d) by done. split.
  - intros H0. apply (matrix_ext n d); [done | done |].
    intros i j Hin Hj. unfold sum_of_squared_error in H0.
    pose proof (sum_over_zero_inv n _
      (λ i _, sum_over_nonneg d _ (λ j _, pow2_ge_0 _)) H0 i Hin) as Hrow.
    pose proof (sum_over_zero_inv d _ (λ j _, pow2_ge_0 _) Hrow j Hj) as He.
    simpl in He. nra.
  - intros ->. unfold sum_of_squared_error.
    apply sum_over_zero. intros i _. apply sum_over_zero. intros j _. lra.
Qed.

(** X1.  [vae_loss] is never negative, because neither of its two terms
    is; it is 0 exactly when the reconstruction is perfect, every mean is 0
    and every log-variance is 0. *)
Theorem vae_loss_minimum (n d k : nat) (x x_hat mu logvar : matrix) :
  shape n d x → shape n d x_hat → shape n k mu → shape n k logvar →
  0 <= mse_loss_sum x_hat x ∧
  mse_loss_sum x_hat x <= vae_loss x x_hat mu logvar ∧
  (vae_loss x x_hat mu logvar = 0 ↔
   x_hat = x ∧ Forall (Forall (λ a, a = 0)) mu ∧
   Forall (Forall (λ a, a = 0)) logvar).
Proof.
  intros Hx Hxh Hmu Hlv.
  assert (Hsplit : vae_loss x x_hat mu logvar =
                   mse_loss_sum x_hat x + kl_term mu logvar) by reflexivity.
  assert (Hrec : 0 <= mse_loss_sum x_hat x).
  { rewrite (mse_loss_sum_entries n d) by done. apply sum_of_squared_error_nonneg. }
  pose proof (kl_term_nonneg n k mu logvar Hmu Hlv) as Hkl.
  split; [exact Hrec |]. split; [lra |].
  rewrite Hsplit, <- (mse_loss_sum_zero n d x_hat x Hxh Hx),
    <- (kl_term_zero n k mu logvar Hmu Hlv).
  split; [intros H; split; lra | intros [-> ->]; lra].
Qed.

Lemma vae_loss_minimum_witness :
  0 <= mse_loss_sum [[0; 2]] [[1; 0]] ∧
  mse_loss_sum [[0; 2]] [[1; 0]] <= vae_loss [[1; 0]] [[0; 2]] [[3]] [[0]] ∧
  vae_loss [[1; 0]] [[1; 0]] [[0]] [[0]] = 0.
Proof.
  destruct (vae_loss_minimum 1 2 1 [[1; 0]] [[0; 2]] [[3]] [[0]])
    as (H1 & H2 & _); try (split; [reflexivity | repeat constructor]).
  destruct (vae_loss_minimum 1 2 1 [[1; 0]] [[1; 0]] [[0]] [[0]])
    as (_ & _ & H3); try (split; [reflexivity | repeat constructor]).
  split; [exact H1 |]. split; [exact H2 |].
  apply H3. repeat constructor.
Defined.

(** ** Reparameterisation *)

Lemma entry_randn_like n k noise m i j :
  shape n k m → (i < n)%nat → (j < k)%nat →
  entry (randn_like noise m) i j = noise i j.
Proof.
  intros [Hl Hf] Hi Hj. unfold entry, randn_like.
  destruct (lookup_lt_is_Some_2 m i) as [r Hr]; [lia |].
  assert (Hk : length r = k) by (eapply Forall_lookup_1 in Hf; eauto).
  rewrite (nth_lookup_Some _ i [] (imap (λ j _, noise i j) r))
    by (by rewrite list_lookup_imap, Hr).
  destruct (lookup_lt_is_Some_2 r j) as [a Ha]; [lia |].
  apply nth_lookup_Some. by rewrite list_lookup_imap, Ha.
Qed.

Lemma reparameterize_entry n k noise mu logvar i j :
  shape n k mu → shape n k logvar → (i < n)%nat → (j < k)%nat →
  entry (reparameterize noise mu logvar) i j =
    entry mu i j + exp (0.5 * entry logvar i j) * noise i j.
Proof.
  intros Hmu Hlv Hi Hj. unfold reparameterize, tadd, tmul, texp.
  assert (Hstd : shape n k (tmap exp (tmap (Rmult 0.5) logvar)))
    by (by do 2 apply shape_tmap).
  rewrite (entry_tzip n k) by (try apply shape_tzip; try apply shape_randn_like; done).
  rewrite (entry_tzip n k) by (try apply shape_randn_like; done).
  rewrite (entry_randn_like n k) by done.
  rewrite (entry_tmap n k) by (try apply shape_tmap; done).
  rewrite (entry_tmap n k) by done. reflexivity.
Qed.

(** X2.  The latent sample is the mean plus the noise scaled entry by entry
    by a standard deviation [exp(0.5 * logvar)] that is always positive; so
    the sample lies on the side of the mean the noise points to, and it is
    the mean itself where the noise is 0. *)
Theorem reparameterize_around_mean (n k : nat) (noise : nat → nat → R)
    (mu logvar : matrix) :
  shape n k mu → shape n k logvar →
  shape n k (reparameterize noise mu logvar) ∧
  (∀ i j, (i < n)%nat → (j < k)%nat →
     ∃ std, 0 < std ∧ std = exp (0.5 * entry logvar i j) ∧
            entry (reparameterize noise mu logvar) i j =
              entry mu i j + std * noise i j) ∧
  ((∀ i j, noise i j = 0) → reparameterize noise mu logvar = mu).
Proof.
  intros Hmu Hlv. split; [by apply shape_reparameterize |]. split.
  - intros i j Hi Hj. exists (exp (0.5 * entry logvar i j)).
    split; [apply exp_pos |]. split; [done |].
    by apply (reparameterize_entry n k).
  - intros H0. apply (matrix_ext n k); [by apply shape_reparameterize | done |].
    intros i j Hi Hj. rewrite (reparameterize_entry n k), H0 by done. lra.
Qed.

Lemma reparameterize_around_mean_witness :
  reparameterize (λ _ _, 0) [[1; 2; 3]] [[0; 0; 4]] = [[1; 2; 3]].
Proof.
  destruct (reparameterize_around_mean 1 3 (λ _ _, 0) [[1; 2; 3]] [[0; 0; 4]])
    as (_ & _ & H); try (split; [reflexivity | repeat constructor]).
  apply H. reflexivity.
Defined.

(** X3.  On a batch of [n] 9-feature rows [forward] returns the [mu] and
    [logvar] of [encode], both n-by-3, whatever noise is drawn: only the
    reconstruction depends on the sample.  With zero noise the
    reconstruction is the decoding of [mu]. *)
Theorem GalaxyVAE_forward_moments (vae : GalaxyVAE) (n : nat) (x : matrix)
    (noise1 noise2 : nat → nat → R) :
  GalaxyVAE_shape 9 3 vae → shape n 9 x →
  ∃ mu logvar x_hat1 x_hat2,
    encode vae x = Some (mu, logvar) ∧
    shape n 3 mu ∧ shape n 3 logvar ∧
    GalaxyVAE_forward vae noise1 x = Some (x_hat1, mu, logvar) ∧
    GalaxyVAE_forward vae noise2 x = Some (x_hat2, mu, logvar) ∧
    ((∀ i j, noise1 i j = 0) → decoder vae mu = Some x_hat1).
Proof.
  intros Hvae Hx.
  destruct (encode_shape _ _ _ _ _ Hvae Hx) as (mu & lv & He & Hmu & Hlv).
  pose proof (shape_reparameterize _ _ noise1 _ _ Hmu Hlv) as Hz1.
  pose proof (shape_reparameterize _ _ noise2 _ _ Hmu Hlv) as Hz2.
  destruct (decoder_shape _ _ _ _ _ Hvae Hz1) as (x1 & Hd1 & _).
  destruct (decoder_shape _ _ _ _ _ Hvae Hz2) as (x2 & Hd2 & _).
  exists mu, lv, x1, x2.
  split; [exact He |]. split; [exact Hmu |]. split; [exact Hlv |].
  unfold GalaxyVAE_forward. rewrite He. simpl. rewrite Hd1, Hd2. simpl.
  split; [done |]. split; [done |].
  intros H0. rewrite <- Hd1. f_equal. symmetry.
  apply (matrix_ext n 3); [done | done |].
  intros i j Hi Hj. rewrite (reparameterize_entry n 3), H0 by done. lra.
Qed.

Lemma GalaxyVAE_forward_moments_witness :
  ∃ mu logvar x_hat1 x_hat2,
    GalaxyVAE_forward zero_vae (λ _ _, 0) [clear_elliptical] = Some (x_hat1, mu, logvar) ∧
    GalaxyVAE_forward zero_vae (λ _ _, 1) [clear_elliptical] = Some (x_hat2, mu, logvar) ∧
    decoder zero_vae mu = Some x_hat1.
Proof.
  destruct (GalaxyVAE_forward_moments zero_vae 1 [clear_elliptical]
              (λ _ _, 0) (λ _ _, 1))
    as (mu & lv & x1 & x2 & _ & _ & _ & H1 & H2 & H3).
  - exact zero_vae_shape.
  - split; [reflexivity | repeat constructor].
  - exists mu, lv, x1, x2. split; [exact H1 |]. split; [exact H2 |].
    apply H3. reflexivity.
Defined.

(** ** The PINN's forward pass *)

(** The time column [forward] concatenates: a vector is unsqueezed, a 2-d
    tensor is taken as it is, a scalar is no column. *)
Definition time_column (t : tensor) : option matrix :=
  match t with
  | Dim0 _ => None
  | Dim1 v => Some (unsqueeze1 v)
  | Dim2 m => Some m
  end.

Lemma Linear_row_is_Some L r :
  is_Some (Linear_row L r) ↔ length r = in_features L.
Proof.
  unfold Linear_row. destruct (decide (length r = in_features L)).
  - split; [done | by eexists].
  - split; [intros [? ?]; done | done].
Qed.

Lemma Linear_forward_is_Some L x :
  is_Some (Linear_forward L x) ↔ Forall (λ r, length r = in_features L) x.
Proof.
  unfold Linear_forward. induction x as [|r x IH].
  - split; [constructor | by eexists].
  - rewrite mapM_cons, Forall_cons, <- IH, <- Linear_row_is_Some.
    destruct (Linear_row L r) as [s|]; cbn [mbind option_bind].
    + destruct (mapM (Linear_row L) x) as [k|]; cbn [mbind option_bind].
      * split; [intros _; split; by eexists | by eexists].
      * split; [intros [? ?]; done | intros [_ [? ?]]; done].
    + split; [intros [? ?]; done | intros [[? ?] _]; done].
Qed.

Lemma Linear_forward_lookup L x y i r :
  Linear_forward L x = Some y → x !! i = Some r →
  ∃ s, y !! i = Some s ∧ Linear_row L r = Some s.
Proof.
  intros Hy Hr. apply mapM_Some_1 in Hy.
  destruct (Forall2_lookup_l _ _ _ _ _ Hy Hr) as (s & Hs & Hrow). eauto.
Qed.

Lemma Linear_forward_lookup_r L x y i s :
  Linear_forward L x = Some y → y !! i = Some s →
  ∃ r, x !! i = Some r ∧ Linear_row L r = Some s.
Proof.
  intros Hy Hs. apply mapM_Some_1 in Hy.
  destruct (Forall2_lookup_r _ _ _ _ _ Hy Hs) as (r & Hr & Hrow). eauto.
Qed.

Lemma Linear_forward_single L r s :
  Linear_row L r = Some s → Linear_forward L [r] = Some [s].
Proof. intros H. unfold Linear_forward. rewrite mapM_cons, H. done. Qed.

Lemma cat_rows x m :
  Forall2 (λ r s : list R, (length r + length s = 10)%nat) x m ↔
  length x = length m ∧ Forall (λ r, length r = 10%nat) (zip_with app x m).
Proof.
  split.
  - induction 1 as [|r s x m Hrs _ [IHl IHf]]; [by split |].
    split; [simpl; lia |]. simpl. constructor; [| done].
    rewrite length_app. lia.
  - revert m. induction x as [|r x IH]; intros [|s m] [Hl Hf]; simpl in *;
      try lia; [constructor |].
    inversion Hf as [|? ? Hr Hx]; subst. rewrite length_app in Hr.
    constructor; [done |]. apply IH. split; [lia | done].
Qed.

(** X4.  With the layers [GalaxyPINN()] constructs, [forward] returns
    exactly when [t] is a vector or a 2-d tensor with one row per row of
    [x], each row of [x] and its time row having 10 entries together; in
    every other case (a scalar [t], batches of different length, a wrong
    number of features) it raises. *)
Theorem GalaxyPINN_forward_defined (pinn : GalaxyPINN) (x : matrix) (t : tensor) :
  GalaxyPINN_shape 9 32 pinn →
  (is_Some (GalaxyPINN_forward pinn x t) ↔
   ∃ m, time_column t = Some m ∧
        Forall2 (λ r s : list R, (length r + length s = 10)%nat) x m).
Proof.
  intros (H0 & H2 & H4).
  assert (Hnet : ∀ x_t, is_Some (net pinn x_t) ↔
                        Forall (λ r, length r = 10%nat) x_t).
  { intros x_t. unfold net, Tanh.
    assert (Hin : in_features (net_0 pinn) = 10%nat) by apply H0.
    rewrite <- Hin, <- Linear_forward_is_Some. split.
    - intros [y Hy]. destruct (Linear_forward (net_0 pinn) x_t); [by eexists | done].
    - intros [h1 Hh1]. rewrite Hh1. cbn [mbind option_bind].
      assert (Hs1 : shape (length x_t) 32 h1).
      { assert (Hsx : shape (length x_t) (in_features (net_0 pinn)) x_t).
        { split; [done |]. apply Linear_forward_is_Some. by eexists. }
        rewrite Hin in Hsx.
        destruct (Linear_forward_shape 10 32 (net_0 pinn) _ x_t H0 Hsx)
          as (h & Hh & Hs).
        rewrite Hh1 in Hh. by injection Hh as ->. }
      apply (shape_tmap _ _ tanh) in Hs1.
      destruct (Linear_forward_shape _ _ _ _ _ H2 Hs1) as (h2 & -> & Hs2).
      cbn [mbind option_bind]. apply (shape_tmap _ _ tanh) in Hs2.
      destruct (Linear_forward_shape _ _ _ _ _ H4 Hs2) as (h3 & -> & _).
      by eexists. }
  assert (Hcol : ∀ m, is_Some (x_t ← cat_dim1 x (Dim2 m); net pinn x_t) ↔
                      Forall2 (λ r s : list R, (length r + length s = 10)%nat) x m).
  { intros m. rewrite cat_rows. unfold cat_dim1.
    destruct (decide (length x = length m)) as [Hl|Hl]; cbn [mbind option_bind].
    - rewrite Hnet. tauto.
    - split; [intros [? ?]; done | tauto]. }
  unfold GalaxyPINN_forward. destruct t as [r|v|m]; cbn [time_column].
  - split; [intros [? ?]; done | intros (m & ? & _); done].
  - rewrite Hcol. split; [eauto | by intros (m & [= <-] & ?)].
  - rewrite Hcol. split; [eauto | by intros (m' & [= <-] & ?)].
Qed.

Lemma GalaxyPINN_forward_defined_witness :
  is_Some (GalaxyPINN_forward zero_pinn [clear_elliptical] (Dim1 [0.5])) ∧
  GalaxyPINN_forward zero_pinn [clear_elliptical] (Dim0 0.5) = None ∧
  GalaxyPINN_forward zero_pinn [clear_elliptical] (Dim1 [0.5; 1]) = None ∧
  GalaxyPINN_forward zero_pinn [[0.9; 0.1]] (Dim1 [0.5]) = None.
Proof.
  pose proof (λ x t, GalaxyPINN_forward_defined zero_pinn x t zero_pinn_shape) as H.
  split; [| split; [| split]].
  - apply H. exists [[0.5]]. split; [reflexivity | by repeat constructor].
  - apply eq_None_not_Some. rewrite H. intros (m & Hm & _). discriminate.
  - apply eq_None_not_Some. rewrite H. intros (m & [= <-] & Hf).
    apply Forall2_length in Hf. discriminate.
  - apply eq_None_not_Some. rewrite H. intros (m & [= <-] & Hf).
    inversion Hf as [|? ? ? ? Hr _]; subst. simpl in Hr. lia.
Defined.

Lemma net_lookup pinn x_t y i r :
  net pinn x_t = Some y → x_t !! i = Some r →
  ∃ h1 h2 s, Linear_row (net_0 pinn) r = Some h1 ∧
             Linear_row (net_2 pinn) (map tanh h1) = Some h2 ∧
             Linear_row (net_4 pinn) (map tanh h2) = Some s ∧
             y !! i = Some s.
Proof.
  unfold net, Tanh, tmap. intros Hy Hr.
  destruct (Linear_forward (net_0 pinn) x_t) as [a1|] eqn:H1;
    cbn [mbind option_bind] in Hy; [| done].
  destruct (Linear_forward (net_2 pinn) (map (map tanh) a1)) as [a2|] eqn:H2;
    cbn [mbind option_bind] in Hy; [| done].
  destruct (Linear_forward_lookup _ _ _ _ _ H1 Hr) as (h1 & Hh1 & Hr1).
  assert (Hm1 : map (map tanh) a1 !! i = Some (map tanh h1))
    by (by rewrite list_lookup_fmap, Hh1).
  destruct (Linear_forward_lookup _ _ _ _ _ H2 Hm1) as (h2 & Hh2 & Hr2).
  assert (Hm2 : map (map tanh) a2 !! i = Some (map tanh h2))
    by (by rewrite list_lookup_fmap, Hh2).
  destruct (Linear_forward_lookup _ _ _ _ _ Hy Hm2) as (s & Hs & Hr3).
  by exists h1, h2, s.
Qed.

Lemma net_length pinn x_t y : net pinn x_t = Some y → length y = length x_t.
Proof.
  unfold net, Tanh, tmap. intros Hy.
  destruct (Linear_forward (net_0 pinn) x_t) as [a1|] eqn:H1;
    cbn [mbind option_bind] in Hy; [| done].
  destruct (Linear_forward (net_2 pinn) (map (map tanh) a1)) as [a2|] eqn:H2;
    cbn [mbind option_bind] in Hy; [| done].
  apply length_mapM in H1, H2, Hy. rewrite !length_map in *. lia.
Qed.

(** X5.  [forward] treats the rows of a batch independently: the output has
    one row per input row, and row [i] is what [forward] returns on row [i]
    of [x] and row [i] of [t] alone. *)
Theorem GalaxyPINN_forward_rowwise (pinn : GalaxyPINN) (x m y : matrix) :
  GalaxyPINN_forward pinn x (Dim2 m) = Some y →
  length y = length x ∧
  ∀ i xi mi, x !! i = Some xi → m !! i = Some mi →
    ∃ yi, y !! i = Some yi ∧
          GalaxyPINN_forward pinn [xi] (Dim2 [mi]) = Some [yi].
Proof.
  unfold GalaxyPINN_forward, cat_dim1. intros Hy.
  destruct (decide (length x = length m)) as [Hl|]; cbn [mbind option_bind] in Hy;
    [| done].
  split.
  - apply net_length in Hy. rewrite length_zip_with in Hy. lia.
  - intros i xi mi Hxi Hmi.
    assert (Hr : zip_with app x m !! i = Some (xi ++ mi))
      by (by rewrite lookup_zip_with, Hxi, Hmi).
    destruct (net_lookup _ _ _ _ _ Hy Hr) as (h1 & h2 & s & H1 & H2 & H3 & Hs).
    exists s. split; [exact Hs |].
    rewrite decide_True by done. cbn [mbind option_bind zip_with].
    unfold net, Tanh, tmap.
    rewrite (Linear_forward_single _ _ _ H1). cbn [mbind option_bind map].
    rewrite (Linear_forward_single _ _ _ H2). cbn [mbind option_bind map].
    by apply Linear_forward_single.
Qed.

Lemma GalaxyPINN_forward_rowwise_witness :
  ∃ y y0 y1,
    GalaxyPINN_forward zero_pinn [clear_elliptical; clear_elliptical]
      (Dim2 [[0]; [1]]) = Some y ∧
    y = [y0; y1] ∧
    GalaxyPINN_forward zero_pinn [clear_elliptical] (Dim2 [[0]]) = Some [y0] ∧
    GalaxyPINN_forward zero_pinn [clear_elliptical] (Dim2 [[1]]) = Some [y1].
Proof.
  destruct (GalaxyPINN_forward_shape 9 32 zero_pinn 2
              [clear_elliptical; clear_elliptical] [[0]; [1]] zero_pinn_shape)
    as (y & Hy & Hs); try (split; [reflexivity | repeat constructor]).
  destruct (GalaxyPINN_forward_rowwise zero_pinn _ _ _ Hy) as [Hl Hrow].
  destruct (Hrow 0%nat clear_elliptical [0]) as (y0 & Hy0 & Hf0); [done | done |].
  destruct (Hrow 1%nat clear_elliptical [1]) as (y1 & Hy1 & Hf1); [done | done |].
  exists y, y0, y1. split; [exact Hy |]. split; [| split; [exact Hf0 | exact Hf1]].
  destruct y as [|a [|b [|c y]]]; simpl in Hl; try discriminate.
  simpl in Hy0, Hy1. congruence.
Defined.

(** ** Bounded predictions *)

Lemma tanh_bounds a : -1 < tanh a < 1.
Proof.
  unfold tanh, sinh, cosh.
  pose proof (exp_pos a) as Hp. pose proof (exp_pos (- a)) as Hq.
  replace ((exp a - exp (- a)) / 2 / ((exp a + exp (- a)) / 2))
    with ((exp a - exp (- a)) / (exp a + exp (- a))) by (field; lra).
  assert (Hd : 0 < exp a + exp (- a)) by lra.
  split.
  - apply (Rmult_lt_reg_r (exp a + exp (- a))); [done |].
    unfold Rdiv. rewrite Rmult_assoc, Rinv_l by lra. lra.
  - apply (Rmult_lt_reg_r (exp a + exp (- a))); [done |].
    unfold Rdiv. rewrite Rmult_assoc, Rinv_l by lra. lra.
Qed.

Lemma Rsum_abs_nonneg w : 0 <= Rsum (map Rabs w).
Proof. apply Rsum_nonneg, Forall_map, Forall_true. intros a. apply Rabs_pos. Qed.

Lemma dot_bound w h :
  Forall (λ a, Rabs a <= 1) h → Rabs (dot w h) <= Rsum (map Rabs w).
Proof.
  unfold dot. revert h. induction w as [|a w IH]; intros h Hh; simpl.
  - rewrite Rabs_R0. lra.
  - destruct h as [|b h]; simpl.
    + rewrite Rabs_R0. pose proof (Rabs_pos a). pose proof (Rsum_abs_nonneg w). lra.
    + inversion Hh as [|? ? Hb Hh']; subst.
      specialize (IH h Hh').
      pose proof (Rabs_triang (a * b) (Rsum (zip_with Rmult w h))) as Ht.
      rewrite Rabs_mult in Ht.
      pose proof (Rabs_pos a). pose proof (Rabs_pos b). nra.
Qed.

(** X6.  Whatever the features and the time, every prediction of the PINN
    is bounded by its last layer alone: output [j] is at most the sum of the
    absolute weights of row [j] plus the absolute bias, because the hidden
    activations are hyperbolic tangents. *)
Theorem GalaxyPINN_forward_bounded (pinn : GalaxyPINN) (x : matrix) (t : tensor)
    (y : matrix) :
  GalaxyPINN_forward pinn x t = Some y →
  ∀ i j yi v, y !! i = Some yi → yi !! j = Some v →
    ∃ w b, weight (net_4 pinn) !! j = Some w ∧ bias (net_4 pinn) !! j = Some b ∧
           Rabs v <= Rsum (map Rabs w) + Rabs b.
Proof.
  unfold GalaxyPINN_forward. intros Hy i j yi v Hyi Hv.
  destruct (cat_dim1 x _) as [x_t|]; cbn [mbind option_bind] in Hy; [| done].
  unfold net, Tanh, tmap in Hy.
  destruct (Linear_forward (net_0 pinn) x_t) as [a1|];
    cbn [mbind option_bind] in Hy; [| done].
  destruct (Linear_forward (net_2 pinn) (map (map tanh) a1)) as [a2|];
    cbn [mbind option_bind] in Hy; [| done].
  destruct (Linear_forward_lookup_r _ _ _ _ _ Hy Hyi) as (r & Hr & Hrow).
  rewrite list_lookup_fmap in Hr.
  destruct (a2 !! i) as [h2|]; simpl in Hr; [| done]. injection Hr as <-.
  unfold Linear_row in Hrow.
  destruct (decide _); [| done]. injection Hrow as <-.
  apply lookup_zip_with_Some in Hv as (w & b & -> & Hw & Hb).
  exists w, b. split; [done |]. split; [done |].
  assert (Hd : Rabs (dot w (map tanh h2)) <= Rsum (map Rabs w)).
  { apply dot_bound, Forall_map, Forall_true. intros a. simpl.
    pose proof (tanh_bounds a). apply Rabs_le. lra. }
  pose proof (Rabs_triang (dot w (map tanh h2)) b). lra.
Qed.

Lemma GalaxyPINN_forward_bounded_witness :
  ∃ y yi v w b,
    GalaxyPINN_forward zero_pinn [clear_elliptical] (Dim1 [0.5]) = Some y ∧
    y !! 0%nat = Some yi ∧ yi !! 0%nat = Some v ∧
    weight (net_4 zero_pinn) !! 0%nat = Some w ∧
    bias (net_4 zero_pinn) !! 0%nat = Some b ∧
    Rabs v <= Rsum (map Rabs w) + Rabs b.
Proof.
  destruct (GalaxyPINN_forward_shape 9 32 zero_pinn 1 [clear_elliptical] [[0.5]]
              zero_pinn_shape)
    as (y & Hy & Hl & Hf); try (split; [reflexivity | repeat constructor]).
  destruct y as [|yi [|? ?]]; simpl in Hl; try discriminate.
  inversion Hf as [|? ? Hyi _]; subst.
  destruct yi as [|v yi]; simpl in Hyi; [discriminate |].
  destruct (GalaxyPINN_forward_bounded zero_pinn [clear_elliptical] (Dim1 [0.5])
              [v :: yi] Hy 0%nat 0%nat (v :: yi) v eq_refl eq_refl)
    as (w & b & Hw & Hb & Hbound).
  by exists [v :: yi], (v :: yi), v, w, b.
Defined.

(** ** Where the residual and the training loss vanish *)

Lemma Rsum_zero_inv l :
  Forall (λ a, 0 <= a) l → Rsum l = 0 → Forall (λ a, a = 0) l.
Proof.
  induction 1 as [|a l Ha Hl IH]; intros Hs; [constructor |].
  simpl in Hs. pose proof (Rsum_nonneg l Hl).
  constructor; [lra | apply IH; lra].
Qed.

Lemma mean_squares_zero l :
  l ≠ [] → (mean (map (λ g, g ^ 2) l) = 0 ↔ Forall (λ g, g = 0) l).
Proof.
  intros Hne. unfold mean. rewrite length_map.
  assert (Hn : 0 < INR (length l)).
  { apply lt_0_INR. destruct l; [done | simpl; lia]. }
  assert (Hsq : Forall (λ a, 0 <= a) (map (λ g, g ^ 2) l)).
  { apply Forall_map, Forall_true. intros g. simpl. apply pow2_ge_0. }
  split.
  - intros H0.
    assert (Hs : Rsum (map (λ g, g ^ 2) l) = 0).
    { apply (Rmult_eq_reg_r (/ INR (length l))).
      - unfold Rdiv in H0. lra.
      - apply Rinv_neq_0_compat. lra. }
    apply Rsum_zero_inv in Hs; [| done].
    apply Forall_map in Hs. eapply Forall_impl; [exact Hs |].
    intros g Hg. simpl in Hg. nra.
  - intros Hz. rewrite Rsum_zero; [unfold Rdiv; lra |].
    apply Forall_map. eapply Forall_impl; [exact Hz |].
    intros g ->. simpl. lra.
Qed.

(** X7.  On a non-empty [t], the physics residual with the default weight
    vanishes exactly when, for every entry of [t], the derivatives of all
    entries of [preds] with respect to it add up to 0. *)
Theorem physics_loss_zero_iff (P : list R → matrix) (t : list R) (preds : tracked) :
  tracks P t preds → t ≠ [] →
  (physics_loss preds None = 0 ↔ Forall (λ J, torch_sum J = 0) (d_dt preds)).
Proof.
  intros Htr Hne.
  rewrite physics_loss_unfold, (tracked_sums P t preds Htr).
  rewrite <- (map_map torch_sum (λ g, g ^ 2)).
  assert (Hd : map torch_sum (d_dt preds) ≠ []).
  { destruct Htr as (_ & Hl & _). destruct (d_dt preds); [| done].
    destruct t; done. }
  split.
  - intros H.
    assert (Hz : mean (map (λ g, g ^ 2) (map torch_sum (d_dt preds))) = 0) by lra.
    apply (mean_squares_zero _ Hd) in Hz. by apply Forall_map in Hz.
  - intros H.
    apply (proj2 (Forall_map torch_sum (λ g, g = 0) (d_dt preds))) in H.
    apply (mean_squares_zero _ Hd) in H. lra.
Qed.

Lemma physics_loss_zero_iff_witness :
  physics_loss preds_cancel None = 0 ↔
  Forall (λ J, torch_sum J = 0) (d_dt preds_cancel).
Proof.
  apply (physics_loss_zero_iff P_cancel [2] preds_cancel).
  - exact tracks_cancel.
  - discriminate.
Defined.

Lemma physics_loss_nonneg preds : 0 <= physics_loss preds None.
Proof.
  rewrite physics_loss_unfold. apply Rmult_le_pos; [lra |].
  apply mean_nonneg, Forall_map, Forall_true. intros J. simpl. apply pow2_ge_0.
Qed.

Lemma length_concat_shape n d (m : matrix) :
  shape n d m → length (concat m) = (n * d)%nat.
Proof.
  revert n. induction m as [|r m IH]; intros n [Hl Hf]; simpl in *.
  - by subst.
  - destruct n as [|n]; [lia |]. inversion Hf; subst.
    rewrite length_app, (IH n) by (split; [lia | done]). lia.
Qed.

Lemma MSELoss_sum n d input target :
  shape n d input → shape n d target →
  MSELoss input target = mse_loss_sum input target / INR (n * d).
Proof.
  intros Hi Ht. unfold MSELoss, mse_loss_sum, torch_mean, torch_sum, mean.
  rewrite (length_concat_shape n d) by (apply shape_tmap, shape_tzip; done).
  reflexivity.
Qed.

(** X8.  The loss of a PINN epoch is never negative, and on a non-empty
    batch it is 0 exactly when the output equals the data in every entry
    and the physics residual vanishes. *)
Theorem pinn_training_loss_minimum (n d : nat) (out : tracked) (X_tensor : matrix) :
  shape n d (value out) → shape n d X_tensor → (n * d ≠ 0)%nat →
  0 <= pinn_training_loss out X_tensor ∧
  (pinn_training_loss out X_tensor = 0 ↔
   value out = X_tensor ∧ physics_loss out None = 0).
Proof.
  intros Ho HX Hnd. unfold pinn_training_loss.
  pose proof (MSELoss_nonneg (value out) X_tensor) as Hm.
  pose proof (physics_loss_nonneg out) as Hp.
  split; [lra |].
  rewrite <- (mse_loss_sum_zero n d _ _ Ho HX).
  assert (Hn : 0 < INR (n * d)) by (apply lt_0_INR; lia).
  assert (Hiff : MSELoss (value out) X_tensor = 0 ↔
                 mse_loss_sum (value out) X_tensor = 0).
  { rewrite (MSELoss_sum n d) by done. split.
    - intros H0. apply (Rmult_eq_reg_r (/ INR (n * d))).
      + unfold Rdiv in H0. lra.
      + apply Rinv_neq_0_compat. lra.
    - intros ->. unfold Rdiv. lra. }
  rewrite <- Hiff. split; [intros H; split; lra | intros [-> ->]; lra].
Qed.

Lemma pinn_training_loss_minimum_witness :
  0 <= pinn_training_loss preds_const [[5; 7]] ∧
  (pinn_training_loss preds_const [[5; 7]] = 0 ↔
   value preds_const = [[5; 7]] ∧ physics_loss preds_const None = 0).
Proof.
  apply (pinn_training_loss_minimum 1 2 preds_const [[5; 7]]).
  - split; [reflexivity | repeat constructor].
  - split; [reflexivity | repeat constructor].
  - discriminate.
Defined.

(** ** What the Renderer draws *)

Lemma linspace_length a b n : length (linspace a b n) = n.
Proof.
  unfold linspace. destruct n as [|[|n]]; [done | done |].
  by rewrite length_map, length_seq.
Qed.

Lemma linspace_between a b n :
  Forall (λ v, Rmin a b <= v <= Rmax a b) (linspace a b n).
Proof.
  assert (Hab : Rmin a b <= a <= Rmax a b)
    by (split; [apply Rmin_l | apply Rmax_l]).
  assert (Hba : Rmin a b <= b <= Rmax a b)
    by (split; [apply Rmin_r | apply Rmax_r]).
  unfold linspace.
  destruct n as [|[|n]];
    [simpl; apply Forall_nil_2
    | apply Forall_cons_2; [exact Hab | apply Forall_nil_2] |].
  apply Forall_map, Forall_forall. intros i Hi.
  apply list_elem_of_In, in_seq in Hi.
  replace (S (S n) - 1)%nat with (S n) by lia.
  assert (Hd : 0 < INR (S n)) by (apply lt_0_INR; lia).
  assert (Hi0 : 0 <= INR i) by apply pos_INR.
  assert (Hi1 : INR i <= INR (S n)) by (apply le_INR; lia).
  set (l := INR i / INR (S n)).
  assert (Hl : 0 <= l <= 1).
  { unfold l. split.
    - apply Rmult_le_pos; [done |]. left. by apply Rinv_0_lt_compat.
    - apply (Rmult_le_reg_r (INR (S n))); [done |].
      unfold Rdiv. rewrite Rmult_assoc, Rinv_l by lra. lra. }
  cbv beta. replace (a + INR i * ((b - a) / INR (S n))) with (a + l * (b - a))
    by (unfold l; field; lra).
  clearbody l.
  destruct Hab as [Ha1 Ha2], Hba as [Hb1 Hb2], Hl as [Hl0 Hl1].
  assert (H1 : 0 <= (1 - l) * (a - Rmin a b)) by (apply Rmult_le_pos; lra).
  assert (H2 : 0 <= l * (b - Rmin a b)) by (apply Rmult_le_pos; lra).
  assert (H3 : 0 <= (1 - l) * (Rmax a b - a)) by (apply Rmult_le_pos; lra).
  assert (H4 : 0 <= l * (Rmax a b - b)) by (apply Rmult_le_pos; lra).
  split; lra.
Qed.

Section RendererFurther.

Context {rng : Type}.
Variable normal : R → R → nat → rng → list R * rng.

(** What [np.random.normal(loc, scale, size)] promises about its result. *)
Definition returns_size : Prop :=
  ∀ loc scale n g, length (normal loc scale n g).1 = n.

(** A scatter layer as the Renderer fills it: [num_stars] stars, and no
    colormap argument above 1. *)
Definition full_layer (s : scatter) : Prop :=
  length (xs s) = num_stars ∧ length (ys s) = num_stars ∧
  length (colors s) = num_stars ∧ Forall (λ c, c <= 1) (colors s).

Lemma draw_spiral_galaxy_features_eq step features (w : world) :
  length features = 9%nat →
  ∃ r theta b,
    length r = num_stars ∧ length theta = num_stars ∧
    draw_spiral_galaxy_features normal step features w =
      let arms := py_int (arm_formula features) in
      let acc := foldl (draw_arm normal r theta arms b) ([], np_random w) (range arms) in
      Some (mkWorld acc.2
              (<[evolution_step_png step := Png (SpiralFigure acc.1)]> (files w))
              (stdout w) (renderer_calls w ++ [(step, features)])).
Proof.
  intros Hlen.
  destruct features as [|P_EL [|P_CW [|P_ACW [|P_EDGE [|P_DK [|P_MG [|P_CS
    [|P_EL_D [|P_CS_D [|? ?]]]]]]]]]]; simpl in Hlen; try lia.
  exists (linspace 0.05 1.0 num_stars),
    (map (λ ri, ri * (0.5 + 3 * (1 - P_EL)) * PI + INR step * 0.3)
         (linspace 0.05 1.0 num_stars)),
    (0.5 + P_CS).
  split; [apply linspace_length |].
  split; [by rewrite length_map, linspace_length |].
  unfold draw_spiral_galaxy_features, arm_formula. cbn [nth]. cbv zeta.
  by destruct (foldl _ _ _).
Qed.

Lemma draw_arm_full r theta n b acc arm :
  returns_size → length r = num_stars → length theta = num_stars →
  Forall full_layer acc.1 →
  Forall full_layer (draw_arm normal r theta n b acc arm).1.
Proof.
  intros Hsize Hr Hth Hacc. unfold draw_arm. destruct acc as [layers g].
  pose proof (Hsize 0 0.02 num_stars g) as Hx.
  destruct (normal 0 0.02 num_stars g) as [jx g1].
  pose proof (Hsize 0 0.02 num_stars g1) as Hy.
  destruct (normal 0 0.02 num_stars g1) as [jy g2]. cbn [fst snd] in *.
  apply Forall_app. split; [done |]. constructor; [| constructor].
  unfold full_layer. cbn [xs ys colors].
  rewrite !length_zip_with, !length_map, linspace_length, Hr, Hth, Hx, Hy.
  repeat split; try lia.
  eapply Forall_impl; [apply linspace_between |].
  intros c [_ Hc]. cbv beta in Hc.
  assert (Rmax 0.2 (Rmin 1.0 b) <= 1); [| lra].
  apply Rmax_lub; [lra |]. etrans; [apply Rmin_l | lra].
Qed.

Lemma foldl_draw_arm_full r theta n b arms acc :
  returns_size → length r = num_stars → length theta = num_stars →
  Forall full_layer acc.1 →
  Forall full_layer (foldl (draw_arm normal r theta n b) acc arms).1.
Proof.
  intros Hsize Hr Hth. revert acc.
  induction arms as [|a arms IH]; intros acc Hacc; [done |].
  simpl. by apply IH, draw_arm_full.
Qed.

(** X9.  The Renderer raises exactly when it is not handed 9 features.
    When it returns, it has written or replaced the one file of its step,
    left every other file and the output stream alone, and been called
    once more. *)
Theorem draw_spiral_galaxy_features_frame (step : nat) (features : list R)
    (w : world) :
  (is_Some (draw_spiral_galaxy_features normal step features w) ↔
   length features = 9%nat) ∧
  ∀ w', draw_spiral_galaxy_features normal step features w = Some w' →
    stdout w' = stdout w ∧
    renderer_calls w' = renderer_calls w ++ [(step, features)] ∧
    (∃ layers, files w' !! evolution_step_png step = Some (Png (SpiralFigure layers))) ∧
    ∀ p, p ≠ evolution_step_png step → files w' !! p = files w !! p.
Proof.
  destruct (decide (length features = 9%nat)) as [Hlen|Hlen].
  - destruct (draw_spiral_galaxy_features_spec normal step features w Hlen)
      as (g & layers & Hd & _).
    rewrite Hd. split; [split; [done | by eexists] |].
    intros w' [= <-]. simpl. split; [done |]. split; [done |]. split.
    + exists layers. apply lookup_insert_eq.
    + intros p Hp. by apply lookup_insert_ne.
  - rewrite (draw_spiral_galaxy_features_unpack normal step features w Hlen).
    split; [split; [intros [? ?]; done | done] | done].
Qed.

(** X10.  When the sampler returns as many samples as it is asked for, every
    arm the Renderer draws has exactly [num_stars] = 1000 stars and 1000
    colormap arguments, none of them above 1: the brightness is capped by
    [min(1.0, brightness)]. *)
Theorem draw_spiral_galaxy_features_layers (step : nat) (features : list R)
    (w : world) :
  returns_size → length features = 9%nat →
  ∃ w' layers,
    draw_spiral_galaxy_features normal step features w = Some w' ∧
    files w' !! evolution_step_png step = Some (Png (SpiralFigure layers)) ∧
    length layers = Z.to_nat (py_int (arm_formula features)) ∧
    Forall full_layer layers.
Proof.
  intros Hsize Hlen.
  destruct (draw_spiral_galaxy_features_eq step features w Hlen)
    as (r & theta & b & Hr & Hth & Hd).
  cbv zeta in Hd. eexists _, _. split; [exact Hd |]. simpl.
  split; [apply lookup_insert_eq |]. split.
  - by rewrite foldl_draw_arm_layers, length_range.
  - by apply foldl_draw_arm_full.
Qed.

(** X11.  When [2 + 4 * (P_CW + P_ACW)] is below 1 the Renderer draws no arm
    at all: the saved figure is empty and no random number is consumed. *)
Theorem draw_spiral_galaxy_features_no_arm (step : nat) (features : list R)
    (w : world) :
  length features = 9%nat → arm_formula features < 1 →
  draw_spiral_galaxy_features normal step features w =
    Some (mkWorld (np_random w)
            (<[evolution_step_png step := Png (SpiralFigure [])]> (files w))
            (stdout w) (renderer_calls w ++ [(step, features)])).
Proof.
  intros Hlen Hv.
  destruct (draw_spiral_galaxy_features_eq step features w Hlen)
    as (r & theta & b & _ & _ & Hd).
  rewrite Hd. cbv zeta.
  assert (Harms : range (py_int (arm_formula features)) = []).
  { unfold range.
    assert (Hle : (py_int (arm_formula features) <= 0)%Z).
    { destruct (Rle_dec 0 (arm_formula features)) as [H0|H0].
      - destruct (py_int_truncates (arm_formula features)) as [Hb _].
        specialize (Hb H0). apply Z.lt_succ_r, lt_IZR. rewrite succ_IZR. lra.
      - destruct (py_int_truncates (arm_formula features)) as [_ Hb].
        assert (Hneg : arm_formula features < 0) by lra.
        specialize (Hb Hneg). apply le_IZR. simpl.
        apply Rnot_lt_le. intros Hpos.
        assert (H1 : (1 <= py_int (arm_formula features))%Z)
          by (apply Z.lt_pred_le, lt_IZR; change (Z.pred 1) with 0%Z; lra).
        apply IZR_le in H1. lra. }
    replace (Z.to_nat (py_int (arm_formula features))) with 0%nat by lia. done. }
  by rewrite Harms.
Qed.

End RendererFurther.

Lemma constant_normal_returns_size : returns_size constant_normal.
Proof. intros loc scale n g. apply length_replicate. Qed.

Lemma draw_spiral_galaxy_features_layers_witness :
  ∃ w' layers,
    draw_spiral_galaxy_features constant_normal 3 clear_elliptical no_frames = Some w' ∧
    files w' !! evolution_step_png 3 = Some (Png (SpiralFigure layers)) ∧
    length layers = Z.to_nat (py_int (arm_formula clear_elliptical)) ∧
    Forall (full_layer) layers.
Proof.
  apply (draw_spiral_galaxy_features_layers constant_normal 3 clear_elliptical no_frames).
  - exact constant_normal_returns_size.
  - reflexivity.
Defined.

Lemma draw_spiral_galaxy_features_no_arm_witness :
  draw_spiral_galaxy_features constant_normal 3 negative_spiral no_frames =
    Some (mkWorld 0%nat
            (<[evolution_step_png 3 := Png (SpiralFigure [])]> (files no_frames))
            [] [(3%nat, negative_spiral)]).
Proof.
  apply (draw_spiral_galaxy_features_no_arm constant_normal 3 negative_spiral no_frames).
  - reflexivity.
  - unfold arm_formula, negative_spiral. simpl. lra.
Defined.

(** ** Runs of the simulator *)

Lemma for_each_ext {A S : Type} (f g : A → S → option S) l s :
  (∀ a s, a ∈ l → f a s = g a s) → for_each f l s = for_each g l s.
Proof.
  revert s. induction l as [|a l IH]; intros s H; [done |].
  rewrite !for_each_cons, (H a s) by left.
  destruct (g a s) as [s'|]; [| done]. cbn [mbind option_bind].
  apply IH. intros b s'' Hb. apply H. by right.
Qed.

Lemma enumerate_times_elem (times : list R) (it : nat * tensor) :
  it ∈ enumerate (map Dim1 (unsqueeze1 times)) ↔
  ∃ i τ, times !! i = Some τ ∧ it = (i, Dim1 [τ]).
Proof.
  unfold enumerate, unsqueeze1. rewrite list_elem_of_lookup. split.
  - intros [i Hi]. rewrite list_lookup_imap, !list_lookup_fmap in Hi.
    destruct (times !! i) as [τ|] eqn:Hτ; simpl in Hi; [| done].
    injection Hi as <-. by exists i, τ.
  - intros (i & τ & Hτ & ->). exists i.
    by rewrite list_lookup_imap, !list_lookup_fmap, Hτ.
Qed.

Lemma linspace_cons a b n :
  n ≠ 0%nat → ∃ rest, linspace a b n = a :: rest.
Proof.
  intros Hn. unfold linspace. destruct n as [|[|n]]; [done | by exists [] |].
  eexists. simpl. f_equal. unfold Rdiv. ring.
Qed.

Section SimulatorFurther.

Context {rng : Type}.
Variable normal : R → R → nat → rng → list R * rng.

(** X12.  With 0 steps [simulate_evolution] returns the world as it found
    it.  With any other step count, an empty starting batch makes it raise:
    there is no first row to render. *)
Theorem simulate_evolution_edges (pinn : GalaxyPINN) (vae : GalaxyVAE)
    (start_state : matrix) (w : @world rng) :
  simulate_evolution normal pinn vae start_state (Some 0%nat) w = Some w ∧
  ∀ steps, steps ≠ Some 0%nat →
    simulate_evolution normal pinn vae [] steps w = None.
Proof.
  split; [done |]. intros steps Hs. unfold simulate_evolution.
  destruct (linspace_cons 0 1 (default 15%nat steps)) as [rest Hl].
  { destruct steps as [[|n]|]; done. }
  rewrite Hl. cbn [iter_tensor mbind option_bind].
  unfold enumerate, unsqueeze1. cbn [map imap]. rewrite for_each_cons.
  reflexivity.
Qed.

Lemma simulate_step_first_row pinn x rest i τ (w : @world rng) :
  GalaxyPINN_shape 9 32 pinn → Forall (λ r, length r = 9%nat) (x :: rest) →
  simulate_step normal pinn (x :: rest) (i, Dim1 [τ]) w =
  simulate_step normal pinn [x] (i, Dim1 [τ]) w.
Proof.
  intros Hp Hf. unfold simulate_step. cbn [expand_col mbind option_bind].
  destruct (GalaxyPINN_forward_shape 9 32 pinn (length (x :: rest)) (x :: rest)
              (replicate (length (x :: rest)) [τ]) Hp)
    as (y & Hy & Hs); [by split | apply shape_replicate |].
  pose proof Hy as Hrow. unfold GalaxyPINN_forward, cat_dim1 in Hrow.
  rewrite decide_True in Hrow by (by rewrite length_replicate).
  cbn [mbind option_bind] in Hrow.
  assert (Hr : zip_with app (x :: rest) (replicate (length (x :: rest)) [τ]) !! 0%nat
               = Some (x ++ [τ])) by done.
  destruct (net_lookup _ _ _ _ _ Hrow Hr) as (h1 & h2 & s & H1 & H2 & H3 & Hs0).
  assert (Hx : GalaxyPINN_forward pinn [x] (Dim2 (replicate 1 [τ])) = Some [s]).
  { unfold GalaxyPINN_forward, cat_dim1. cbn [replicate length].
    rewrite decide_True by done. cbn [mbind option_bind zip_with].
    unfold net, Tanh, tmap.
    rewrite (Linear_forward_single _ _ _ H1). cbn [mbind option_bind map].
    rewrite (Linear_forward_single _ _ _ H2). cbn [mbind option_bind map].
    by apply Linear_forward_single. }
  cbn [length] in *. rewrite Hy, Hx. unfold call, numpy.
  cbn [mbind option_bind requires_grad values]. by rewrite Hs0.
Qed.

(** X13.  Only the first row of the starting batch is rendered: with the
    layers [GalaxyPINN()] constructs and 9 features in every row, a run on
    a batch does to the world exactly what a run on its first row does. *)
Theorem simulate_evolution_first_row (pinn : GalaxyPINN) (vae : GalaxyVAE)
    (x : list R) (rest : matrix) (steps : option nat) (w : @world rng) :
  GalaxyPINN_shape 9 32 pinn → Forall (λ r, length r = 9%nat) (x :: rest) →
  simulate_evolution normal pinn vae (x :: rest) steps w =
  simulate_evolution normal pinn vae [x] steps w.
Proof.
  intros Hp Hf. unfold simulate_evolution. cbn [iter_tensor mbind option_bind].
  apply for_each_ext. intros it s Hit.
  apply enumerate_times_elem in Hit as (i & τ & _ & ->).
  by apply simulate_step_first_row.
Qed.

Lemma simulate_step_files pinn start_state i t (w w1 : @world rng) :
  simulate_step normal pinn start_state (i, t) w = Some w1 →
  ∃ layers,
    files w1 = <[evolution_step_png i := Png (SpiralFigure layers)]> (files w) ∧
    stdout w1 = stdout w.
Proof.
  unfold simulate_step. intros H.
  destruct (expand_col _ t) as [t_input|]; cbn [mbind option_bind] in H; [| done].
  destruct (call false _) as [evolved|]; cbn [mbind option_bind] in H; [| done].
  destruct (numpy evolved) as [arr|]; cbn [mbind option_bind] in H; [| done].
  destruct (arr !! 0%nat) as [features|]; cbn [mbind option_bind] in H; [| done].
  destruct (decide (length features = 9%nat)) as [Hlen|Hlen].
  - destruct (draw_spiral_galaxy_features_spec normal i features w Hlen)
      as (g & layers & Hd & _).
    rewrite Hd in H. injection H as <-. by exists layers.
  - by rewrite (draw_spiral_galaxy_features_unpack normal i features w Hlen) in H.
Qed.

Definition spiral_png (f : option file) : Prop :=
  ∃ layers, f = Some (Png (SpiralFigure layers)).

Lemma for_each_files pinn start_state its (w w' : @world rng) :
  for_each (simulate_step normal pinn start_state) its w = Some w' →
  stdout w' = stdout w ∧
  (∀ p, spiral_png (files w !! p) → spiral_png (files w' !! p)) ∧
  (∀ i t, (i, t) ∈ its → spiral_png (files w' !! evolution_step_png i)) ∧
  (∀ p, (∀ i t, (i, t) ∈ its → p ≠ evolution_step_png i) →
        files w' !! p = files w !! p).
Proof.
  revert w. induction its as [|[i t] its IH]; intros w H.
  - injection H as <-. split; [done |]. split; [done |].
    split; [intros ? ? Hin; by apply elem_of_nil in Hin | done].
  - rewrite for_each_cons in H.
    destruct (simulate_step normal pinn start_state (i, t) w) as [w1|] eqn:H1;
      cbn [mbind option_bind] in H; [| done].
    apply simulate_step_files in H1 as (layers & Hf1 & Ho1).
    destruct (IH w1 H) as (Ho & Hkeep & Hnew & Hother).
    assert (Hkeep1 : ∀ p, spiral_png (files w !! p) → spiral_png (files w1 !! p)).
    { intros p Hp. rewrite Hf1.
      destruct (decide (p = evolution_step_png i)) as [->|Hne].
      - rewrite lookup_insert_eq. by eexists.
      - by rewrite lookup_insert_ne. }
    split; [congruence |]. split; [auto |]. split.
    + intros j u Hin. apply elem_of_cons in Hin as [[= -> ->]|Hin]; [| eauto].
      apply Hkeep. rewrite Hf1, lookup_insert_eq. by eexists.
    + intros p Hp. rewrite Hother.
      * rewrite Hf1, lookup_insert_ne; [done |].
        intros <-. by apply (Hp i t); [left |].
      * intros j u Hin. apply (Hp j u). by right.
Qed.

(** X14.  A run of [n] steps that returns has left the output stream alone
    and every file alone except the [n] step files
    [results/evolution_step_NN.png], each of which now holds a spiral
    figure. *)
Theorem simulate_evolution_files (pinn : GalaxyPINN) (vae : GalaxyVAE)
    (start_state : matrix) (n : nat) (w w' : @world rng) :
  simulate_evolution normal pinn vae start_state (Some n) w = Some w' →
  stdout w' = stdout w ∧
  (∀ i, (i < n)%nat → spiral_png (files w' !! evolution_step_png i)) ∧
  (∀ p, (∀ i, (i < n)%nat → p ≠ evolution_step_png i) →
        files w' !! p = files w !! p).
Proof.
  unfold simulate_evolution. cbn [default iter_tensor mbind option_bind].
  intros H. apply for_each_files in H as (Ho & _ & Hnew & Hother).
  assert (Hidx : ∀ i, (i < n)%nat ↔
            ∃ t, (i, t) ∈ enumerate (map Dim1 (unsqueeze1 (linspace 0 1 n)))).
  { intros i. split.
    - intros Hi. destruct (lookup_lt_is_Some_2 (linspace 0 1 n) i) as [τ Hτ];
        [by rewrite linspace_length |].
      exists (Dim1 [τ]). apply enumerate_times_elem. by exists i, τ.
    - intros (t & Hin). apply enumerate_times_elem in Hin as (j & τ & Hτ & [= -> _]).
      apply lookup_lt_Some in Hτ. by rewrite linspace_length in Hτ. }
  split; [exact Ho |]. split.
  - intros i Hi. apply Hidx in Hi as [t Hin]. eauto.
  - intros p Hp. apply Hother. intros i t Hin. apply Hp, Hidx. eauto.
Qed.

End SimulatorFurther.

Lemma simulate_evolution_first_row_witness :
  simulate_evolution constant_normal zero_pinn zero_vae
    [clear_elliptical; negative_spiral] (Some 2%nat) no_frames =
  simulate_evolution constant_normal zero_pinn zero_vae
    [clear_elliptical] (Some 2%nat) no_frames.
Proof.
  apply (simulate_evolution_first_row constant_normal zero_pinn zero_vae).
  - exact zero_pinn_shape.
  - repeat constructor.
Defined.

Lemma simulate_evolution_files_witness :
  ∃ w', simulate_evolution constant_normal zero_pinn zero_vae
          [clear_elliptical] (Some 2%nat) no_frames = Some w' ∧
        stdout w' = [] ∧
        spiral_png (files w' !! evolution_step_png 1) ∧
        files w' !! "results/vae_confusion_matrix.png" = Some frame_a.
Proof.
  destruct (evolution_sequence_defined zero_pinn clear_elliptical (Some 2%nat)
              zero_pinn_shape eq_refl) as [calls Hseq].
  pose proof (simulate_evolution_trace constant_normal zero_pinn zero_vae
                [clear_elliptical] (Some 2%nat) no_frames) as Hrun.
  rewrite Hseq in Hrun. destruct Hrun as (w' & Hrun & _).
  destruct (simulate_evolution_files constant_normal zero_pinn zero_vae
              [clear_elliptical] 2 no_frames w' Hrun) as (Ho & Hnew & Hother).
  exists w'. split; [exact Hrun |]. split; [exact Ho |].
  split; [apply Hnew; lia |].
  rewrite Hother; [reflexivity |].
  intros i Hi. destruct i as [|[|i]]; [vm_compute; discriminate
                                      | vm_compute; discriminate | lia].
Defined.

(** ** The order of frame names *)

Lemma str_le_spec a b :
  str_le a b ↔ a = b ∨ OrderedTypeEx.String_as_OT.lt a b.
Proof.
  unfold str_le, String.leb.
  pose proof (OrderedTypeEx.String_as_OT.cmp_eq a b) as Heq.
  pose proof (OrderedTypeEx.String_as_OT.cmp_lt a b) as Hlt.
  unfold OrderedTypeEx.String_as_OT.cmp in *.
  destruct (String.compare a b).
  - split; [intros _; left; by apply Heq | done].
  - split; [intros _; right; by apply Hlt | done].
  - split; [done |]. intros [H|H]; [by apply Heq in H | by apply Hlt in H].
Qed.

#[global] Instance str_le_trans : Transitive str_le.
Proof.
  intros a b c. rewrite !str_le_spec. intros [->|Hab] [->|Hbc]; auto.
  right. by apply (OrderedTypeEx.String_as_OT.lt_trans a b c).
Qed.

#[global] Instance str_le_antisymm : AntiSymm (=) str_le.
Proof. intros a b Hab Hba. by apply String.leb_antisym. Qed.

(** The comparisons of the first [n] frame names, checked one by one. *)
Definition frame_order_ok (n : nat) : bool :=
  forallb (λ i, forallb (λ j,
      Bool.eqb (i <=? j)%nat (String.leb (evolution_step_png i) (evolution_step_png j)))
    (seq 0 n)) (seq 0 n).

Definition frame_glob_ok (n : nat) : bool :=
  forallb (λ i, glob_match "results" (evolution_step_png i)) (seq 0 n).

Lemma frame_order_table : frame_order_ok 100 = true.
Proof. vm_compute. reflexivity. Qed.

Lemma frame_glob_table : frame_glob_ok 100 = true.
Proof. vm_compute. reflexivity. Qed.

Lemma frame_order i j :
  (i < 100)%nat → (j < 100)%nat →
  (str_le (evolution_step_png i) (evolution_step_png j) ↔ (i ≤ j)%nat).
Proof.
  intros Hi Hj. pose proof frame_order_table as H.
  unfold frame_order_ok in H. rewrite forallb_forall in H.
  assert (Hini : In i (seq 0 100)) by (apply in_seq; lia).
  assert (Hinj : In j (seq 0 100)) by (apply in_seq; lia).
  specialize (H i Hini). rewrite forallb_forall in H.
  specialize (H j Hinj). apply Bool.eqb_prop in H.
  unfold str_le. rewrite <- H. apply Nat.leb_le.
Qed.

Lemma frame_glob i :
  (i < 100)%nat → glob_match "results" (evolution_step_png i) = true.
Proof.
  intros Hi. pose proof frame_glob_table as H.
  unfold frame_glob_ok in H. rewrite forallb_forall in H.
  apply H, in_seq. lia.
Qed.

Lemma frame_inj i j :
  (i < 100)%nat → (j < 100)%nat →
  evolution_step_png i = evolution_step_png j → i = j.
Proof.
  intros Hi Hj Heq.
  assert (H1 : (i ≤ j)%nat)
    by (apply (frame_order i j Hi Hj), str_le_spec; by left).
  assert (H2 : (j ≤ i)%nat)
    by (apply (frame_order j i Hj Hi), str_le_spec; by left).
  lia.
Qed.

Lemma Sorted_map_seq {A : Type} (R : relation A) (f : nat → A) a k :
  (∀ i, (a ≤ i)%nat → (S i < a + k)%nat → R (f i) (f (S i))) →
  Sorted R (map f (seq a k)).
Proof.
  revert a. induction k as [|k IH]; intros a H; [constructor |].
  simpl. constructor.
  - apply IH. intros i Hi1 Hi2. apply H; lia.
  - destruct k as [|k]; simpl; constructor. apply H; lia.
Qed.

Lemma frames_Sorted n :
  (n ≤ 100)%nat → Sorted str_le (map evolution_step_png (seq 0 n)).
Proof.
  intros Hn. apply Sorted_map_seq. intros i _ Hi.
  apply frame_order; lia.
Qed.

(** X15.  The zero-padded names keep the frames in step order under
    [sorted] for the first 100 steps, and all of them match the pattern
    [create_gif] globs for; from step 100 on the order breaks, frame 100
    sorting before frame 11. *)
Theorem frames_sort_in_step_order :
  (∀ i j, (i < 100)%nat → (j < 100)%nat →
     (str_le (evolution_step_png i) (evolution_step_png j) ↔ (i ≤ j)%nat)) ∧
  (∀ i, (i < 100)%nat → glob_match "results" (evolution_step_png i) = true) ∧
  (∀ n l, (n ≤ 100)%nat → l ≡ₚ map evolution_step_png (seq 0 n) →
     sorted l = map evolution_step_png (seq 0 n)) ∧
  sorted [evolution_step_png 11; evolution_step_png 100] =
    [evolution_step_png 100; evolution_step_png 11].
Proof.
  split; [exact frame_order |]. split; [exact frame_glob |]. split.
  - intros n l Hn Hl.
    apply (Sorted_unique str_le); [apply sorted_Sorted | by apply frames_Sorted |].
    unfold sorted. by rewrite merge_sort_Permutation.
  - vm_compute. reflexivity.
Qed.

(** ** From the simulation to the GIF *)

Lemma mapM_None {A B : Type} (f : A → option B) l a :
  a ∈ l → f a = None → mapM f l = None.
Proof.
  intros Hin Hf. destruct (mapM f l) as [k|] eqn:Hk; [| done].
  apply mapM_Some_1 in Hk. apply list_elem_of_lookup in Hin as [i Hi].
  destruct (Forall2_lookup_l _ _ _ _ _ Hk Hi) as (b & _ & Hb). congruence.
Qed.

Lemma mapM_ext_in {A B : Type} (f g : A → option B) l :
  (∀ a, a ∈ l → f a = g a) → mapM f l = mapM g l.
Proof.
  induction l as [|a l IH]; intros H; [done |].
  rewrite !mapM_cons, (H a) by left. rewrite IH; [done |].
  intros b Hb. apply H. by right.
Qed.

Lemma sorted_Permutation l1 l2 : l1 ≡ₚ l2 → sorted l1 = sorted l2.
Proof.
  intros H. apply (Sorted_unique str_le); try apply sorted_Sorted.
  unfold sorted. by rewrite !merge_sort_Permutation.
Qed.

Lemma glob_Permutation folder (fs1 fs2 : gmap string file) :
  (∀ p, glob_match folder p = true → (is_Some (fs1 !! p) ↔ is_Some (fs2 !! p))) →
  glob folder fs1 ≡ₚ glob folder fs2.
Proof.
  intros H. apply NoDup_Permutation; try apply NoDup_glob.
  intros p. rewrite !elem_of_glob. split; intros [Hm Hs]; (split; [done |]);
    by apply (H p Hm).
Qed.

Section Animation.

Context {rng : Type}.
Variable normal : R → R → nat → rng → list R * rng.

Lemma glob_after_simulation pinn vae start_state n (w w1 : @world rng) :
  (n ≤ 100)%nat → glob "results" (files w) = [] →
  simulate_evolution normal pinn vae start_state (Some n) w = Some w1 →
  sorted (glob "results" (files w1)) = map evolution_step_png (seq 0 n).
Proof.
  intros Hn Hempty Hrun.
  destruct (simulate_evolution_files normal pinn vae start_state n w w1 Hrun)
    as (_ & Hnew & Hother).
  apply (Sorted_unique str_le); [apply sorted_Sorted | by apply frames_Sorted |].
  unfold sorted. rewrite merge_sort_Permutation.
  apply NoDup_Permutation; [apply NoDup_glob | |].
  - apply NoDup_fmap_2_strong; [| apply NoDup_seq].
    intros i j Hi Hj. apply list_elem_of_In, in_seq in Hi, Hj.
    apply frame_inj; lia.
  - intros p. rewrite elem_of_glob. split.
    + intros [Hm Hs].
      destruct (decide (p ∈ map evolution_step_png (seq 0 n))) as [|Hnot]; [done |].
      exfalso. rewrite Hother in Hs.
      * assert (Hin : p ∈ glob "results" (files w)) by (by apply elem_of_glob).
        rewrite Hempty in Hin. by apply elem_of_nil in Hin.
      * intros i Hi ->. apply Hnot, list_elem_of_fmap. exists i.
        split; [done |]. apply list_elem_of_In, in_seq. lia.
    + intros Hin. apply list_elem_of_fmap in Hin as (i & -> & Hi).
      apply list_elem_of_In, in_seq in Hi.
      split; [apply frame_glob; lia |].
      destruct (Hnew i) as [layers Hl]; [lia |]. rewrite Hl. by eexists.
Qed.

Lemma simulate_then_create_gif_steps pinn vae x n (w : @world rng) :
  GalaxyPINN_shape 9 32 pinn → length x = 9%nat → (1 ≤ n ≤ 100)%nat →
  glob "results" (files w) = [] →
  ∃ w1 frames,
    simulate_evolution normal pinn vae [x] (Some n) w = Some w1 ∧
    stdout w1 = stdout w ∧
    create_gif None None None w1 =
      Some (mkWorld (np_random w1)
              (<["Train_evolution.gif" := Gif frames 200 0]> (files w1))
              (stdout w1 ++ ["🎞️ GIF saved as Train_evolution.gif"])
              (renderer_calls w1)) ∧
    length frames = n ∧
    (∀ i, (i < n)%nat →
       frames !! i = files w1 !! evolution_step_png i ∧ spiral_png (frames !! i)).
Proof.
  intros Hp Hx [Hn1 Hn] Hempty.
  destruct (evolution_sequence_defined pinn x (Some n) Hp Hx) as [calls Hseq].
  pose proof (simulate_evolution_trace normal pinn vae [x] (Some n) w) as Hrun.
  rewrite Hseq in Hrun. destruct Hrun as (w1 & Hrun & _ & Hout).
  destruct (simulate_evolution_files normal pinn vae [x] n w w1 Hrun)
    as (_ & Hnew & _).
  pose proof (glob_after_simulation pinn vae [x] n w w1 Hn Hempty Hrun) as Hglob.
  set (g := λ p : string, default Other (files w1 !! p)).
  assert (Hopen : mapM (Image_open (files w1)) (map evolution_step_png (seq 0 n)) =
                  Some (map g (map evolution_step_png (seq 0 n)))).
  { apply mapM_total. intros p Hin.
    apply list_elem_of_fmap in Hin as (i & -> & Hi).
    apply list_elem_of_In, in_seq in Hi.
    destruct (Hnew i) as [layers Hl]; [lia |].
    unfold Image_open, g. by rewrite Hl. }
  set (frames := map g (map evolution_step_png (seq 0 n))).
  assert (Hlen : length frames = n)
    by (unfold frames; by rewrite !length_map, length_seq).
  exists w1, frames.
  split; [exact Hrun |]. split; [exact Hout |]. split.
  { unfold create_gif. cbn [default]. rewrite Hglob, Hopen.
    cbn [mbind option_bind]. fold frames.
    destruct frames as [|f frames']; [simpl in Hlen; lia | done]. }
  split; [exact Hlen |].
  intros i Hi. destruct (Hnew i Hi) as [layers Hl].
  assert (Hfi : frames !! i = Some (Png (SpiralFigure layers))).
  { unfold frames. rewrite !list_lookup_fmap, lookup_seq_lt by done. simpl.
    unfold g. by rewrite Hl. }
  rewrite Hfi, Hl. split; [done | by eexists].
Qed.

(** X16.  Simulation and GIF assembly fit together: with the layers
    [GalaxyPINN()] constructs, a 9-feature starting row, between 1 and 100
    steps and a results folder that holds no frame yet, [simulate_evolution]
    followed by [create_gif()] returns, and the GIF it writes has exactly one
    frame per step, frame [i] being the figure saved for step [i]. *)
Theorem simulate_then_create_gif (pinn : GalaxyPINN) (vae : GalaxyVAE)
    (x : list R) (n : nat) (w : @world rng) :
  GalaxyPINN_shape 9 32 pinn → length x = 9%nat → (1 ≤ n ≤ 100)%nat →
  glob "results" (files w) = [] →
  ∃ w1 w2 frames,
    simulate_evolution normal pinn vae [x] (Some n) w = Some w1 ∧
    create_gif None None None w1 = Some w2 ∧
    files w2 = <["Train_evolution.gif" := Gif frames 200 0]> (files w1) ∧
    length frames = n ∧
    (∀ i, (i < n)%nat →
       frames !! i = files w1 !! evolution_step_png i ∧ spiral_png (frames !! i)) ∧
    stdout w2 = stdout w ++ ["🎞️ GIF saved as Train_evolution.gif"].
Proof.
  intros Hp Hx Hn Hempty.
  destruct (simulate_then_create_gif_steps pinn vae x n w Hp Hx Hn Hempty)
    as (w1 & frames & Hrun & Hout & Hgif & Hlen & Hframes).
  eexists w1, _, frames. split; [exact Hrun |]. split; [exact Hgif |].
  split; [done |]. split; [exact Hlen |]. split; [exact Hframes |].
  cbn [stdout]. by rewrite Hout.
Qed.

End Animation.

Lemma simulate_then_create_gif_witness :
  ∃ w1 w2 frames,
    simulate_evolution constant_normal zero_pinn zero_vae
      [clear_elliptical] (Some 3%nat) no_frames = Some w1 ∧
    create_gif None None None w1 = Some w2 ∧
    files w2 !! "Train_evolution.gif" = Some (Gif frames 200 0) ∧
    length frames = 3%nat.
Proof.
  destruct (simulate_then_create_gif constant_normal zero_pinn zero_vae
              clear_elliptical 3 no_frames)
    as (w1 & w2 & frames & Hrun & Hgif & Hfiles & Hlen & _).
  - exact zero_pinn_shape.
  - reflexivity.
  - lia.
  - vm_compute. reflexivity.
  - exists w1, w2, frames. split; [exact Hrun |]. split; [exact Hgif |].
    split; [| exact Hlen]. rewrite Hfiles. apply lookup_insert_eq.
Defined.

(** ** The end of the script *)

Section ScriptProperties.

Context {rng : Type}.
Variable normal : R → R → nat → rng → list R * rng.

Lemma select_sample_is_Some (X_tensor : matrix) rand_idx :
  is_Some (select_sample X_tensor rand_idx) ↔ (rand_idx < length X_tensor)%nat.
Proof.
  unfold select_sample. rewrite <- lookup_lt_is_Some.
  destruct (X_tensor !! rand_idx) as [row|]; cbn [mbind option_bind].
  - split; intros _; by eexists.
  - split; intros [? ?]; done.
Qed.

(** X17.  Every index [random.choice] can return is a row of the data
    exactly when the data has more than 800 rows; an index beyond the data
    makes the script raise.  With the layers [GalaxyPINN()] constructs,
    9 features in the chosen row and a results folder that holds no frame
    yet, the end of the script returns, having printed the announcement of
    the galaxy and the GIF message and written a GIF of 15 frames. *)
Theorem simulate_and_animate_run (pinn : GalaxyPINN) (vae : GalaxyVAE)
    (X_tensor : matrix) (rand_idx : nat) (w : @world rng) :
  ((∀ idx, idx ∈ galaxy_choices → is_Some (select_sample X_tensor idx)) ↔
   (800 < length X_tensor)%nat) ∧
  ((length X_tensor ≤ rand_idx)%nat →
   simulate_and_animate normal pinn vae X_tensor rand_idx w = None) ∧
  (∀ x, GalaxyPINN_shape 9 32 pinn → X_tensor !! rand_idx = Some x →
        length x = 9%nat → glob "results" (files w) = [] →
   ∃ w' frames,
     simulate_and_animate normal pinn vae X_tensor rand_idx w = Some w' ∧
     files w' !! "Train_evolution.gif" = Some (Gif frames 200 0) ∧
     length frames = 15%nat ∧
     stdout w' = stdout w ++
       [String (Ascii.ascii_of_nat 10)
          ("🌌 Simulating galaxy at index " +:+ pretty rand_idx);
        "🎞️ GIF saved as Train_evolution.gif"]).
Proof.
  split; [| split].
  - split.
    + intros H. apply select_sample_is_Some, H. unfold galaxy_choices. set_solver.
    + intros Hlen idx Hidx. apply select_sample_is_Some.
      unfold galaxy_choices in Hidx.
      repeat (apply elem_of_cons in Hidx as [-> | Hidx]); try lia.
      by apply elem_of_nil in Hidx.
  - intros Hlen. unfold simulate_and_animate, select_sample.
    by rewrite (lookup_ge_None_2 X_tensor rand_idx Hlen).
  - intros x Hp Hx Hlen Hempty.
    set (w0 := mkWorld (np_random w) (files w)
                 (stdout w ++ [String (Ascii.ascii_of_nat 10)
                    ("🌌 Simulating galaxy at index " +:+ pretty rand_idx)])
                 (renderer_calls w)).
    destruct (simulate_then_create_gif_steps normal pinn vae x 15 w0 Hp Hlen)
      as (w1 & frames & Hrun & Hout & Hgif & Hfl & _); [lia | exact Hempty |].
    eexists _, frames. split.
    + unfold simulate_and_animate, select_sample. rewrite Hx.
      cbn [mbind option_bind]. fold w0.
      change (simulate_evolution normal pinn vae [x] None w0)
        with (simulate_evolution normal pinn vae [x] (Some 15%nat) w0).
      rewrite Hrun. cbn [mbind option_bind]. exact Hgif.
    + cbn [files stdout]. split; [apply lookup_insert_eq |].
      split; [exact Hfl |]. rewrite Hout. unfold w0. cbn [stdout].
      by rewrite <- app_assoc.
Qed.

End ScriptProperties.

Lemma simulate_and_animate_run_witness :
  ∃ w' frames,
    simulate_and_animate constant_normal zero_pinn zero_vae
      (replicate 801 clear_elliptical) 800 no_frames = Some w' ∧
    files w' !! "Train_evolution.gif" = Some (Gif frames 200 0) ∧
    length frames = 15%nat.
Proof.
  destruct (simulate_and_animate_run constant_normal zero_pinn zero_vae
              (replicate 801 clear_elliptical) 800 no_frames) as (_ & _ & H).
  destruct (H clear_elliptical) as (w' & frames & Hrun & Hgif & Hlen & _).
  - exact zero_pinn_shape.
  - apply lookup_replicate_2. lia.
  - reflexivity.
  - vm_compute. reflexivity.
  - exists w', frames. split; [exact Hrun |]. split; [exact Hgif | exact Hlen].
Defined.

(** ** Running [create_gif] again, and on damaged frames *)

Lemma glob_match_png folder path :
  glob_match folder path = true →
  String.substring (String.length path - 4) 4 path = ".png".
Proof.
  unfold glob_match. intros H.
  apply andb_prop in H as [H _]. apply andb_prop in H as [_ H].
  by apply String.eqb_eq in H.
Qed.

Lemma glob_match_not_gif folder : glob_match folder "Train_evolution.gif" = false.
Proof.
  destruct (glob_match folder "Train_evolution.gif") eqn:H; [| done].
  apply glob_match_png in H. vm_compute in H. discriminate.
Qed.

(** X18.  With the default GIF name, [create_gif] never takes its own
    output for a frame: it leaves every file but [Train_evolution.gif] as it
    was, and a second call finds the same frames, returns, and leaves the
    files exactly as the first call left them. *)
Theorem create_gif_rerun {rng : Type} (folder : option string)
    (duration : option Z) (w w1 : @world rng) :
  create_gif folder None duration w = Some w1 →
  (∀ p, p ≠ "Train_evolution.gif" → files w1 !! p = files w !! p) ∧
  sorted (glob (default "results" folder) (files w1)) =
    sorted (glob (default "results" folder) (files w)) ∧
  ∃ w2, create_gif folder None duration w1 = Some w2 ∧ files w2 = files w1.
Proof.
  intros Hrun.
  assert (Hkeep : ∀ p, p ≠ "Train_evolution.gif" → files w1 !! p = files w !! p).
  { intros p Hp. unfold create_gif in Hrun. cbn [default] in Hrun.
    destruct (mapM _ _) as [[|img images]|]; cbn [mbind option_bind] in Hrun;
      [| | done]; injection Hrun as <-; cbn [files]; [done |].
    by rewrite lookup_insert_ne. }
  assert (Hglob : sorted (glob (default "results" folder) (files w1)) =
                  sorted (glob (default "results" folder) (files w))).
  { apply sorted_Permutation, glob_Permutation. intros p Hm.
    rewrite Hkeep; [done |]. intros ->.
    by rewrite glob_match_not_gif in Hm. }
  split; [exact Hkeep |]. split; [exact Hglob |].
  assert (Hopen : mapM (Image_open (files w1))
                    (sorted (glob (default "results" folder) (files w))) =
                  mapM (Image_open (files w))
                    (sorted (glob (default "results" folder) (files w)))).
  { apply mapM_ext_in. intros p Hp.
    apply elem_of_sorted, elem_of_glob in Hp as [Hm _].
    unfold Image_open. rewrite Hkeep; [done |].
    intros ->. by rewrite glob_match_not_gif in Hm. }
  unfold create_gif in *. cbn [default] in *. rewrite Hglob, Hopen.
  destruct (mapM _ _) as [[|img images]|]; cbn [mbind option_bind] in *;
    [| | done]; injection Hrun as <-; cbn [files].
  - by eexists.
  - eexists. split; [done |]. cbn [files]. apply insert_insert_eq.
Qed.

Lemma create_gif_rerun_witness :
  ∃ w1 w2, create_gif None None None two_frames = Some w1 ∧
           create_gif None None None w1 = Some w2 ∧ files w2 = files w1.
Proof.
  assert (Hrun : is_Some (create_gif None None None two_frames))
    by (vm_compute; by eexists).
  destruct Hrun as [w1 Hrun].
  destruct (create_gif_rerun None None two_frames w1 Hrun) as (_ & _ & w2 & H2 & Hf).
  exists w1, w2. split; [exact Hrun |]. split; [exact H2 | exact Hf].
Defined.

(** X19.  One frame that PIL cannot open is enough for [create_gif] to
    raise, whatever else the folder holds; nothing is written. *)
Theorem create_gif_undecodable {rng : Type} (folder gif_name : option string)
    (duration : option Z) (w : @world rng) (p : string) :
  glob_match (default "results" folder) p = true → files w !! p = Some Other →
  create_gif folder gif_name duration w = None.
Proof.
  intros Hm Hp. unfold create_gif.
  rewrite (mapM_None _ _ p); [done | |].
  - apply elem_of_sorted, elem_of_glob. split; [done | by eexists].
  - unfold Image_open. by rewrite Hp.
Qed.

Lemma create_gif_undecodable_witness :
  create_gif None None None
    (mkWorld 0%nat (<["results/evolution_step_07.png" := Other]> (files two_frames))
       [] []) = None.
Proof.
  apply (create_gif_undecodable None None None _ "results/evolution_step_07.png").
  - vm_compute. reflexivity.
  - apply lookup_insert_eq.
Defined.

(** ** Averages of the evaluation *)

Lemma twice_product_bound a l :
  2 * a * Rsum l <= INR (length l) * a ^ 2 + Rsum (map (λ s, s ^ 2) l).
Proof.
  induction l as [|s l IH]; [simpl; lra |].
  change (2 * a * (s + Rsum l) <=
          INR (S (length l)) * a ^ 2 + (s ^ 2 + Rsum (map (λ s, s ^ 2) l))).
  rewrite S_INR. assert (0 <= (a - s) ^ 2) by apply pow2_ge_0. nra.
Qed.

Lemma square_of_sum_bound l :
  Rsum l ^ 2 <= INR (length l) * Rsum (map (λ s, s ^ 2) l).
Proof.
  induction l as [|a l IH]; [simpl; lra |].
  change ((a + Rsum l) ^ 2 <=
          INR (S (length l)) * (a ^ 2 + Rsum (map (λ s, s ^ 2) l))).
  rewrite S_INR.
  pose proof (twice_product_bound a l) as Ht.
  assert (Hq : 0 <= Rsum (map (λ s, s ^ 2) l)).
  { apply Rsum_nonneg, Forall_map, Forall_true. intros s. simpl. apply pow2_ge_0. }
  nra.
Qed.

(** The mean of the roots is at most the root of the mean. *)
Lemma mean_sqrt_le l :
  Forall (λ a, 0 <= a) l →
  0 <= mean (map sqrt l) ∧ mean (map sqrt l) <= sqrt (mean l).
Proof.
  intros Hl.
  assert (Hroots : Forall (λ a, 0 <= a) (map sqrt l)).
  { apply Forall_map, Forall_true. intros a. apply sqrt_pos. }
  pose proof (mean_nonneg _ Hroots) as H0. split; [exact H0 |].
  destruct l as [|a0 l0];
    [unfold mean, Rdiv; simpl; rewrite !Rmult_0_l, sqrt_0; lra |].
  set (l := a0 :: l0) in *.
  assert (Hn : 0 < INR (length l)) by (apply lt_0_INR; simpl; lia).
  rewrite <- (sqrt_pow2 (mean (map sqrt l))) by done.
  apply sqrt_le_1_alt.
  pose proof (square_of_sum_bound (map sqrt l)) as Hc.
  rewrite length_map, map_map in Hc. cbv beta in Hc.
  assert (Hsq : Rsum (map (λ x, sqrt x ^ 2) l) = Rsum l).
  { clear -Hl. induction Hl as [|a l Ha _ IH]; [done |].
    change (sqrt a ^ 2 + Rsum (map (λ x, sqrt x ^ 2) l) = a + Rsum l).
    rewrite IH. f_equal. simpl. rewrite Rmult_1_r. by apply sqrt_sqrt. }
  rewrite Hsq in Hc. unfold mean. rewrite length_map.
  assert (Hinv : 0 < / INR (length l)) by (by apply Rinv_0_lt_compat).
  unfold Rdiv.
  replace ((Rsum (map sqrt l) * / INR (length l)) ^ 2)
    with (Rsum (map sqrt l) ^ 2 * (/ INR (length l) * / INR (length l))) by ring.
  replace (Rsum l * / INR (length l))
    with (INR (length l) * Rsum l * (/ INR (length l) * / INR (length l)))
    by (field; lra).
  apply Rmult_le_compat_r; [nra | exact Hc].
Qed.

Section MetricsFurther.

Context {rng : Type}.
Variable accuracy_score : list Z → list Z → R.
Variable f1_score_micro : list Z → list Z → R.
Variable confusion_matrix : list Z → list Z → list (list nat).

Lemma evaluate_pinn_averages pinn data t_values (w : @world rng) d w' :
  evaluate_pinn accuracy_score f1_score_micro confusion_matrix
    pinn data t_values w = Some (d, w') →
  ∃ mses,
    Forall (λ a, 0 <= a) mses ∧
    d !! "Average MSE" = Some (Float (mean mses)) ∧
    d !! "Average RMSE" = Some (Float (mean (map sqrt mses))).
Proof.
  unfold evaluate_pinn. cbv zeta. intros H.
  destruct (iter_tensor _) as [ts|]; simpl in H; [|done].
  destruct (mapM (evaluate_pinn_at _ _ _ _ _) ts) as [results|] eqn:Hres;
    simpl in H; [|done].
  destruct (mapM (λ r : gmap string R, r !! "MSE") results) as [mses|] eqn:Hm;
    simpl in H; [|done].
  destruct (mapM (λ r : gmap string R, r !! "RMSE") results) as [rmses|] eqn:Hr;
    simpl in H; [|done].
  destruct (mapM (λ r : gmap string R, r !! "Accuracy") results); simpl in H; [|done].
  destruct (mapM (λ r : gmap string R, r !! "F1 Score") results); simpl in H; [|done].
  destruct (ts !! _) as [mid_t|]; simpl in H; [|done].
  destruct (expand_col (length data) mid_t) as [mid_t_tensor|]; simpl in H; [|done].
  destruct (GalaxyPINN_forward pinn data mid_t_tensor) as [mid|]; simpl in H; [|done].
  destruct (item mid_t) as [mid_t_item|]; simpl in H; [|done].
  injection H as <- <-.
  assert (Hrec : Forall (λ r : gmap string R, ∃ pred t, r = timepoint_record
                    accuracy_score f1_score_micro data pred t) results).
  { apply mapM_Some_1 in Hres. clear -Hres.
    induction Hres as [|t r ts results Hr _ IH]; constructor; [| exact IH].
    apply evaluate_pinn_at_inv in Hr as (pred & t_item & _ & ->). eauto. }
  assert (Hrm : rmses = map sqrt mses ∧ Forall (λ a, 0 <= a) mses).
  { apply mapM_Some_1 in Hm, Hr. clear -Hm Hr Hrec.
    revert mses rmses Hm Hr. induction Hrec as [|r results (pred & t & ->) _ IH];
      intros mses rmses Hm Hr.
    - inversion Hm; inversion Hr; subst. by split.
    - inversion Hm as [|? m ? ms Hm1 Hm2]; inversion Hr as [|? q ? qs Hr1 Hr2]; subst.
      destruct (IH ms qs Hm2 Hr2) as [-> Hpos].
      destruct (timepoint_record_lookup accuracy_score f1_score_micro data pred t)
        as (_ & H1 & H2 & _).
      rewrite H1 in Hm1. rewrite H2 in Hr1.
      injection Hm1 as <-. injection Hr1 as <-.
      split; [done |]. constructor; [apply MSELoss_nonneg | done]. }
  destruct Hrm as [-> Hpos]. exists mses.
  split; [exact Hpos |]. split; by simplify_map_eq.
Qed.

(** X20.  In every dictionary [evaluate_pinn] returns, the two averages
    are not negative and the Average RMSE is at most the square root of the
    Average MSE: averaging the roots can only lose against the root of the
    average. *)
Theorem evaluate_pinn_average_rmse (pinn : GalaxyPINN) (data : matrix)
    (t_values : option tensor) (w : @world rng) (d : gmap string dict_value)
    (w' : @world rng) :
  evaluate_pinn accuracy_score f1_score_micro confusion_matrix
    pinn data t_values w = Some (d, w') →
  ∃ avg_mse avg_rmse,
    d !! "Average MSE" = Some (Float avg_mse) ∧
    d !! "Average RMSE" = Some (Float avg_rmse) ∧
    0 <= avg_mse ∧ 0 <= avg_rmse ∧ avg_rmse <= sqrt avg_mse.
Proof.
  intros H. apply evaluate_pinn_averages in H as (mses & Hpos & Hm & Hr).
  exists (mean mses), (mean (map sqrt mses)).
  split; [exact Hm |]. split; [exact Hr |].
  split; [by apply mean_nonneg |]. by apply mean_sqrt_le.
Qed.

End MetricsFurther.

Lemma evaluate_pinn_average_rmse_witness :
  ∃ d w' avg_mse avg_rmse,
    evaluate_pinn agreement agreement pair_counts
      zero_pinn [clear_elliptical] None no_frames = Some (d, w') ∧
    d !! "Average MSE" = Some (Float avg_mse) ∧
    d !! "Average RMSE" = Some (Float avg_rmse) ∧
    avg_rmse <= sqrt avg_mse.
Proof.
  destruct (evaluate_pinn_run agreement agreement pair_counts zero_pinn
              [clear_elliptical] 1 (linspace 0 1 10) no_frames zero_pinn_shape)
    as (results & cm & w' & Hrun & _); [split; [reflexivity | repeat constructor] | done |].
  destruct (evaluate_pinn_average_rmse agreement agreement pair_counts zero_pinn
              [clear_elliptical] None no_frames _ w' Hrun)
    as (am & ar & H1 & H2 & _ & _ & H3).
  exists (pinn_summary results cm), w', am, ar.
  split; [exact Hrun |]. split; [exact H1 |]. split; [exact H2 | exact H3].
Defined.

Section MetricsRuns.

Context {rng : Type}.
Variable accuracy_score : list Z → list Z → R.
Variable f1_score_micro : list Z → list Z → R.
Variable confusion_matrix : list Z → list Z → list (list nat).

(** X21.  On a non-empty batch of 9-feature rows and with the layers
    [GalaxyPINN()] constructs, [evaluate_pinn] raises on an empty vector of
    time values.  On a non-empty one it returns one record per time value, in order and with
    that time under "t"; the confusion matrix it returns is the one of the
    time value in the middle position [len // 2], its heatmap is the only
    file written, and nothing is printed. *)
Theorem evaluate_pinn_times (pinn : GalaxyPINN) (data : matrix) (n : nat)
    (times : list R) (w : @world rng) :
  GalaxyPINN_shape 9 32 pinn → shape n 9 data → n ≠ 0%nat →
  (times = [] →
   evaluate_pinn accuracy_score f1_score_micro confusion_matrix
     pinn data (Some (Dim1 times)) w = None) ∧
  (times ≠ [] →
   ∃ d w' results mid mid_pred,
     evaluate_pinn accuracy_score f1_score_micro confusion_matrix
       pinn data (Some (Dim1 times)) w = Some (d, w') ∧
     d !! "Detail" = Some (Records results) ∧
     Forall2 (λ τ (r : gmap string R),
                r !! "t" = Some τ ∧
                record_of accuracy_score f1_score_micro pinn data τ r)
             times results ∧
     times !! (length times / 2)%nat = Some mid ∧
     GalaxyPINN_forward pinn data (Dim2 (replicate n [mid])) = Some mid_pred ∧
     d !! "Mid-t Confusion Matrix" =
       Some (ConfusionMatrix
               (confusion_matrix (concat (binarize 0.5 data))
                                 (concat (binarize 0.5 mid_pred)))) ∧
     files w' =
       <["results/pinn_confusion_matrix.png" :=
           Png (HeatmapFigure "PINN Prediction Confusion Matrix" (Some mid)
                  (confusion_matrix (concat (binarize 0.5 data))
                                    (concat (binarize 0.5 mid_pred))))]> (files w) ∧
     stdout w' = stdout w ∧ np_random w' = np_random w ∧
     renderer_calls w' = renderer_calls w).
Proof.
  intros Hp Hd Hn0. split; [by intros -> |]. intros Hne.
  destruct (evaluate_pinn_loop accuracy_score f1_score_micro pinn data n times Hp Hd)
    as (results & Hm & Hf).
  destruct (lookup_lt_is_Some_2 times (length times / 2)%nat) as [τ Hτ].
  { destruct times; [done |]. apply Nat.div_lt; simpl; lia. }
  assert (Hτ' : map Dim0 times !! (length (map Dim0 times) / 2)%nat = Some (Dim0 τ))
    by (by rewrite length_map, list_lookup_fmap, Hτ).
  destruct (GalaxyPINN_forward_shape 9 32 pinn n data (replicate n [τ]) Hp Hd
              (shape_replicate n τ)) as (mid & Hmidf & _).
  assert (Hn : length data = n) by apply Hd.
  eexists _, _, results, τ, mid. split.
  { unfold evaluate_pinn. cbv zeta.
    change (iter_tensor (default (Dim1 (linspace 0 1 10)) (Some (Dim1 times))))
      with (Some (map Dim0 times)).
    cbn [mbind option_bind]. rewrite Hm. cbn [mbind option_bind].
    rewrite !(column_lookup accuracy_score f1_score_micro pinn data times results)
      by (done || set_solver).
    cbn [fmap option_fmap option_map mbind option_bind].
    rewrite Hτ'. cbn [mbind option_bind expand_col].
    rewrite Hn, Hmidf. reflexivity. }
  split; [by simplify_map_eq |]. split.
  { eapply Forall2_impl; [exact Hf |]. intros t r Hr. split; [| exact Hr].
    destruct Hr as (pred & _ & ->).
    by destruct (timepoint_record_lookup accuracy_score f1_score_micro data pred t)
      as (Ht & _). }
  split; [exact Hτ |]. split; [exact Hmidf |].
  split; [by simplify_map_eq |]. done.
Qed.

(** X22.  With the layers [GalaxyVAE()] constructs and a non-empty batch of
    rows in [[0,1]^9], [evaluate_vae] returns a dictionary with exactly the keys MSE,
    RMSE, Accuracy, F1 Score and Confusion Matrix, in which the MSE and the
    RMSE lie between 0 and 1; the heatmap is the only file written and
    nothing is printed. *)
Theorem evaluate_vae_report (vae : GalaxyVAE) (noise : nat → nat → R)
    (data : matrix) (n : nat) (threshold : option R) (w : @world rng) :
  GalaxyVAE_shape 9 3 vae → shape n 9 data → n ≠ 0%nat →
  Forall (Forall unit_interval) data →
  ∃ d w' mse rmse cm,
    evaluate_vae accuracy_score f1_score_micro confusion_matrix
      vae noise data threshold w = Some (d, w') ∧
    dom d = ({["MSE"; "RMSE"; "Accuracy"; "F1 Score"; "Confusion Matrix"]} : gset string) ∧
    d !! "MSE" = Some (Float mse) ∧ d !! "RMSE" = Some (Float rmse) ∧
    0 <= mse <= 1 ∧ 0 <= rmse <= 1 ∧
    d !! "Confusion Matrix" = Some (ConfusionMatrix cm) ∧
    files w' =
      <["results/vae_confusion_matrix.png" :=
          Png (HeatmapFigure "VAE Reconstruction Confusion Matrix" None cm)]> (files w) ∧
    stdout w' = stdout w ∧ np_random w' = np_random w ∧
    renderer_calls w' = renderer_calls w.
Proof.
  intros Hvae Hd Hn0 Hunit.
  destruct (encode_shape _ _ _ _ _ Hvae Hd) as (mu & lv & He & Hmu & Hlv).
  pose proof (shape_reparameterize _ _ noise _ _ Hmu Hlv) as Hz.
  destruct (decoder_shape _ _ _ _ _ Hvae Hz) as (x_hat & Hdec & Hxs).
  pose proof (decoder_bounded _ _ _ Hdec) as Hxb.
  assert (Hfwd : GalaxyVAE_forward vae noise data = Some (x_hat, mu, lv)).
  { unfold GalaxyVAE_forward. rewrite He. simpl. by rewrite Hdec. }
  assert (Hmse : 0 <= MSELoss x_hat data <= 1).
  { split; [apply MSELoss_nonneg |].
    unfold MSELoss, torch_mean, mean, tsquare, tsub.
    set (m := tmap (λ a, a ^ 2) (tzip Rminus x_hat data)).
    assert (Hm : Forall (Forall (λ a, 0 <= a <= 1)) m).
    { apply (all_entries _ n 9); [by apply shape_tmap, shape_tzip |].
      intros i j Hi Hj. unfold m.
      rewrite (entry_tmap n 9), (entry_tzip n 9) by (try apply shape_tzip; done).
      pose proof (proj1 (all_entries unit_interval n 9 x_hat Hxs) Hxb i j Hi Hj) as Ha.
      pose proof (proj1 (all_entries unit_interval n 9 data Hd) Hunit i j Hi Hj) as Hb.
      unfold unit_interval in Ha, Hb. split; [apply pow2_ge_0 | nra]. }
    assert (Hc : Forall (λ a, 0 <= a <= 1) (concat m)) by (by apply Forall_concat).
    assert (Hs : Rsum (concat m) <= INR (length (concat m))).
    { clear -Hc. induction Hc as [|a l Ha _ IH]; [simpl; lra |].
      simpl length. rewrite S_INR. simpl. lra. }
    assert (Hlen : length (concat m) = (n * 9)%nat)
      by (by apply length_concat_shape, shape_tmap, shape_tzip).
    assert (Hn : 0 < INR (length (concat m)))
      by (rewrite Hlen; apply lt_0_INR; lia).
    apply (Rmult_le_reg_r (INR (length (concat m)))); [done |].
    unfold Rdiv. rewrite Rmult_assoc, Rinv_l, Rmult_1_r, Rmult_1_l by lra.
    exact Hs. }
  eexists _, _, (MSELoss x_hat data), (sqrt (MSELoss x_hat data)), _.
  split; [unfold evaluate_vae; rewrite Hfwd; reflexivity |].
  split; [by rewrite !dom_insert_L, dom_empty_L; set_solver |].
  split; [by simplify_map_eq |]. split; [by simplify_map_eq |].
  split; [exact Hmse |]. split.
  { split; [apply sqrt_pos |]. rewrite <- sqrt_1. apply sqrt_le_1_alt. lra. }
  split; [by simplify_map_eq |]. done.
Qed.

End MetricsRuns.

Lemma evaluate_pinn_times_witness :
  evaluate_pinn agreement agreement pair_counts
    zero_pinn [clear_elliptical] (Some (Dim1 [])) no_frames = None ∧
  ∃ d w' results,
    evaluate_pinn agreement agreement pair_counts
      zero_pinn [clear_elliptical] (Some (Dim1 [0; 0.5; 1])) no_frames = Some (d, w') ∧
    d !! "Detail" = Some (Records results) ∧ length results = 3%nat ∧
    stdout w' = [].
Proof.
  destruct (evaluate_pinn_times agreement agreement pair_counts zero_pinn
              [clear_elliptical] 1 [] no_frames zero_pinn_shape) as [Hnone _];
    [split; [reflexivity | repeat constructor] | discriminate |].
  destruct (evaluate_pinn_times agreement agreement pair_counts zero_pinn
              [clear_elliptical] 1 [0; 0.5; 1] no_frames zero_pinn_shape) as [_ Hsome];
    [split; [reflexivity | repeat constructor] | discriminate |].
  split; [by apply Hnone |].
  destruct Hsome as (d & w' & results & mid & mid_pred & Hrun & Hd & Hf & _ & _ & _ & _
                     & Hout & _); [done |].
  exists d, w', results. split; [exact Hrun |]. split; [exact Hd |].
  split; [| exact Hout]. apply Forall2_length in Hf. by rewrite <- Hf.
Defined.

Lemma evaluate_vae_report_witness :
  ∃ d w' mse rmse,
    evaluate_vae agreement agreement pair_counts
      zero_vae (λ _ _, 0) [clear_elliptical] None no_frames = Some (d, w') ∧
    d !! "MSE" = Some (Float mse) ∧ d !! "RMSE" = Some (Float rmse) ∧
    0 <= mse <= 1 ∧ 0 <= rmse <= 1.
Proof.
  destruct (evaluate_vae_report agreement agreement pair_counts zero_vae (λ _ _, 0)
              [clear_elliptical] 1 None no_frames)
    as (d & w' & mse & rmse & cm & Hrun & _ & H1 & H2 & H3 & H4 & _).
  - exact zero_vae_shape.
  - split; [reflexivity | repeat constructor].
  - discriminate.
  - repeat constructor; unfold unit_interval; lra.
  - exists d, w', mse, rmse.
    split; [exact Hrun |]. split; [exact H1 |]. split; [exact H2 |].
    split; [exact H3 | exact H4].
Defined.
